(** * Lexical-confidence reports for OCR'd Middle Dutch: the two report scripts

    A shallow embedding of

      - [Confidence_Tests/ocr_middle_dutch_lexical_confidence.py]
        (module [LexicalConfidence]) and
      - [ocr_middle_dutch_false_confidence_list.py]
        (module [FalseConfidenceList]),

    over a small model of the pieces of the Python runtime they call
    (module [Py]): [str] as a sequence of code points, exceptions as an
    error monad, the fragment of [re] the scripts use, [collections.Counter]
    as an insertion-ordered dictionary, [sorted] with a key, [math.log] and
    float division read over the real numbers, with the rounding of an
    [int] to a double and no other rounding. *)

From Stdlib Require Import List ZArith NArith Bool Lia Permutation Sorted.
From Stdlib Require Import Ascii String.
From Stdlib Require Import Reals Lra.
Import ListNotations.

(* ===================================================================== *)
(** * The Python runtime the scripts rely on *)
(* ===================================================================== *)

Module Py.

(** A [str] is a sequence of Unicode code points ([ord] of each
    character). *)
Definition str := list N.

(** Exceptions the modelled code can raise.  [re_error] is [re.error];
    [re_unsupported] marks a pattern outside the fragment of [re]
    modelled here (none of the scripts' patterns is). *)
Inductive re_msg :=
| bad_character_range (lo hi : N)
| unterminated_character_set.

Inductive exn :=
| re_error (msg : re_msg)
| re_unsupported
| ValueError
| ZeroDivisionError.

Inductive result (A : Type) :=
| Ok (a : A)
| Raise (e : exn).
Arguments Ok {A} a.
Arguments Raise {A} e.

Definition bind {A B} (r : result A) (k : A -> result B) : result B :=
  match r with
  | Ok a => k a
  | Raise e => Raise e
  end.

Declare Scope py_scope.
Delimit Scope py_scope with py.
Notation "x <- e ;; k" := (bind e (fun x => k))
  (at level 61, e at next level, right associativity) : py_scope.
Local Open Scope py_scope.

(** A list comprehension / for loop whose body may raise. *)
Fixpoint mapM {A B} (f : A -> result B) (l : list A) : result (list B) :=
  match l with
  | [] => Ok []
  | a :: l' => b <- f a ;; bs <- mapM f l' ;; Ok (b :: bs)
  end.

(** ** [str]: equality, ordering, [lower] *)

Fixpoint str_eqb (s t : str) : bool :=
  match s, t with
  | [], [] => true
  | c :: s', d :: t' => (c =? d)%N && str_eqb s' t'
  | _, _ => false
  end.

(** [s < t] on [str]: the first position where the two differ decides;
    without one the shorter string is the smaller. *)
Fixpoint str_ltb (s t : str) : bool :=
  match s, t with
  | _, [] => false
  | [], _ :: _ => true
  | c :: s', d :: t' => if (c =? d)%N then str_ltb s' t' else (c <? d)%N
  end.

(** [str.lower] on the code points below U+0100: A-Z, and the capital
    letters of Latin-1 (U+00C0-U+00DE without the multiplication sign
    U+00D7), move 32 up; everything else there is its own lowercase.
    Code points from U+0100 on are left as they are: the scripts only
    lower matches of character classes that end at U+00FF. *)
Definition lower_char (c : N) : N :=
  if ((0x41 <=? c) && (c <=? 0x5A))%N then (c + 32)%N
  else if ((0xC0 <=? c) && (c <=? 0xDE) && negb (c =? 0xD7))%N then (c + 32)%N
  else c.

Definition lower (s : str) : str := map lower_char s.

(** A string literal of a source file (UTF-8) as the [str] it denotes. *)
Fixpoint utf8_decode (bs : list N) : str :=
  match bs with
  | [] => []
  | b0 :: r0 =>
      if (b0 <? 0x80)%N then b0 :: utf8_decode r0
      else if (b0 <? 0xE0)%N then
        match r0 with
        | b1 :: r1 => ((b0 - 0xC0) * 64 + (b1 - 0x80))%N :: utf8_decode r1
        | _ => []
        end
      else if (b0 <? 0xF0)%N then
        match r0 with
        | b1 :: b2 :: r2 =>
            ((b0 - 0xE0) * 4096 + (b1 - 0x80) * 64 + (b2 - 0x80))%N
              :: utf8_decode r2
        | _ => []
        end
      else
        match r0 with
        | b1 :: b2 :: b3 :: r3 =>
            ((b0 - 0xF0) * 262144 + (b1 - 0x80) * 4096
             + (b2 - 0x80) * 64 + (b3 - 0x80))%N :: utf8_decode r3
        | _ => []
        end
  end.

Definition lit (s : string) : str :=
  utf8_decode (map N_of_ascii (list_ascii_of_string s)).

(** ** The fragment of [re]: one character set under [+]

    [parse_set] is the loop of the [re] parser over the body of a
    character set, after the opening bracket: an item is a literal or a
    range [lo-hi], a range with [hi < lo] raises
    [re.error("bad character range")], a closing bracket ends the set
    unless it is its first character, and a hyphen before the closing
    bracket is a literal.  Escapes and negated sets are outside the
    fragment. *)
Inductive set_item :=
| LITERAL (c : N)
| RANGE (lo hi : N).

Definition c_lbracket : N := 0x5B.
Definition c_rbracket : N := 0x5D.
Definition c_backslash : N := 0x5C.
Definition c_hyphen : N := 0x2D.
Definition c_caret : N := 0x5E.
Definition c_plus : N := 0x2B.

Definition is_nil {A} (l : list A) : bool :=
  match l with [] => true | _ => false end.

Fixpoint parse_set (src : str) (set : list set_item)
  : result (list set_item * str) :=
  match src with
  | [] => Raise (re_error unterminated_character_set)
  | this :: rest =>
      if (this =? c_rbracket)%N && negb (is_nil set) then Ok (set, rest)
      else if (this =? c_backslash)%N then Raise re_unsupported
      else
        match rest with
        | next :: rest0 =>
            if (next =? c_hyphen)%N then
              match rest0 with
              | [] => Raise (re_error unterminated_character_set)
              | that :: rest' =>
                  if (that =? c_rbracket)%N
                  then Ok (set ++ [LITERAL this; LITERAL c_hyphen], rest')
                  else if (that =? c_backslash)%N then Raise re_unsupported
                  else if (that <? this)%N
                  then Raise (re_error (bad_character_range this that))
                  else parse_set rest' (set ++ [RANGE this that])
              end
            else parse_set rest (set ++ [LITERAL this])
        | [] => parse_set rest (set ++ [LITERAL this])
        end
  end.

(** A compiled pattern of the fragment: [[set]+]. *)
Inductive pattern :=
| IN_PLUS (set : list set_item).

Definition compile (p : str) : result pattern :=
  match p with
  | c :: src =>
      if (c =? c_lbracket)%N then
        match src with
        | c' :: _ =>
            if (c' =? c_caret)%N then Raise re_unsupported
            else
              sr <- parse_set src [] ;;
              match snd sr with
              | [q] => if (q =? c_plus)%N then Ok (IN_PLUS (fst sr))
                       else Raise re_unsupported
              | _ => Raise re_unsupported
              end
        | [] => Raise (re_error unterminated_character_set)
        end
      else Raise re_unsupported
  | [] => Raise re_unsupported
  end.

Definition item_matches (c : N) (i : set_item) : bool :=
  match i with
  | LITERAL l => (c =? l)%N
  | RANGE lo hi => ((lo <=? c) && (c <=? hi))%N
  end.

Definition in_set (set : list set_item) (c : N) : bool :=
  existsb (item_matches c) set.

(** The scan of [findall] for [[set]+]: left to right, [run] is the
    match in progress (greedy, so it ends only at a character outside
    the set or at the end of the text); matches do not overlap and are
    never empty. *)
Definition flush (run : str) (ms : list str) : list str :=
  match run with [] => ms | _ :: _ => run :: ms end.

Fixpoint scan (set : list set_item) (text run : str) : list str :=
  match text with
  | [] => flush run []
  | c :: text' =>
      if in_set set c then scan set text' (run ++ [c])
      else flush run (scan set text' [])
  end.

(** [re.findall(pattern, text)] for a pattern without groups: the list
    of matched substrings.  The pattern is compiled first, so a bad
    pattern raises whatever the text. *)
Definition findall (p text : str) : result (list str) :=
  cp <- compile p ;;
  match cp with
  | IN_PLUS set => Ok (scan set text [])
  end.

(** [bool(re.fullmatch(pattern, word))]: the whole of [word] is one
    non-empty run of the set. *)
Definition fullmatch (p word : str) : result bool :=
  cp <- compile p ;;
  match cp with
  | IN_PLUS set => Ok (negb (is_nil word) && forallb (in_set set) word)
  end.

(** ** [collections.Counter]

    A dictionary from [str] to [int] in insertion order.  [update]
    counts the elements of an iterable: each one sets
    [self[elem] = self.get(elem, 0) + 1], in place when the key is
    there and at the end when it is new. *)
Definition Counter := list (str * Z).

Fixpoint get (m : Counter) (k : str) (default : Z) : Z :=
  match m with
  | [] => default
  | (k', v) :: m' => if str_eqb k k' then v else get m' k default
  end.

Fixpoint incr (m : Counter) (k : str) : Counter :=
  match m with
  | [] => [(k, 1%Z)]
  | (k', v) :: m' =>
      if str_eqb k k' then (k', (v + 1)%Z) :: m' else (k', v) :: incr m' k
  end.

Definition update (m : Counter) (elems : list str) : Counter :=
  fold_left incr elems m.

Definition items (m : Counter) : list (str * Z) := m.
Definition values (m : Counter) : list Z := map snd m.

(** [max(iterable)]: [ValueError] on an empty one. *)
Definition max (l : list Z) : result Z :=
  match l with
  | [] => Raise ValueError
  | x :: l' => Ok (fold_left Z.max l' x)
  end.

(** ** [sorted(iterable, key=...)] and [list.sort(key=...)]

    A stable sort on keys compared with [<]: each element goes before
    the first later element whose key is not smaller than its own. *)
Section Sorted.
Variables (A K : Type) (ltb : K -> K -> bool) (key : A -> K).

Fixpoint insert (x : A) (l : list A) : list A :=
  match l with
  | [] => [x]
  | y :: l' => if ltb (key y) (key x) then y :: insert x l' else x :: y :: l'
  end.

Definition sorted (l : list A) : list A := fold_right insert [] l.
End Sorted.
Arguments insert {A K} ltb key x l.
Arguments sorted {A K} ltb key l.

(** Tuples [(int, str)] compared as Python compares tuples. *)
Definition key_ltb (k1 k2 : Z * str) : bool :=
  if (fst k1 =? fst k2)%Z then str_ltb (snd k1) (snd k2)
  else (fst k1 <? fst k2)%Z.

(** ** [math.log] of an [int] and [/] on floats

    A float is read as the real number it stands for.  What is modelled
    of the rounding is the conversion of the [int] to a double:
    [to_double x] is the double nearest to a positive [x], ties to the
    even mantissa, which is what [PyLong_AsDouble] gives below 2^1024 and
    what the mantissa and exponent of the [frexp] path stand for from
    there on.  The rounding of the logarithm itself and of the quotient
    is not modelled: [log] and [truediv] return the exact real, so
    nothing that rests on those two roundings can be read off them. *)
Definition to_double (x : Z) : Z :=
  if (x <? 2 ^ 53)%Z then x
  else
    let k := (Z.log2 x - 52)%Z in
    let q := (x / 2 ^ k)%Z in
    let r := (x mod 2 ^ k)%Z in
    let half := (2 ^ (k - 1))%Z in
    if (r <? half)%Z then (q * 2 ^ k)%Z
    else if (half <? r)%Z then ((q + 1) * 2 ^ k)%Z
    else if Z.even q then (q * 2 ^ k)%Z
    else ((q + 1) * 2 ^ k)%Z.

Definition log (x : Z) : result R :=
  if (0 <? x)%Z then Ok (ln (IZR (to_double x))) else Raise ValueError.

Definition truediv (a b : R) : result R :=
  if Req_dec_T b 0%R then Raise ZeroDivisionError else Ok (a / b)%R.

End Py.

(* ===================================================================== *)
(** * Confidence_Tests/ocr_middle_dutch_lexical_confidence.py *)
(* ===================================================================== *)

Module LexicalConfidence.
Import Py.
Local Open Scope py_scope.

(** The pattern as the source file has it: after [a-z] come U+00C3,
    then the range from U+20AC to U+00C3, then U+00BF. *)
Definition tokenize_pattern : str := lit "[A-Za-zÃ€-Ã¿]+".

Definition tokenize (text : str) : result (list str) :=
  tokens <- findall tokenize_pattern text ;;
  Ok (map lower tokens).

(** A reference file of the allowed extensions: [None] when
    [read_text] raises (the file is reported and skipped), else its
    decoded text. *)
Definition ref_file := option str.

Fixpoint build_reference_counts_loop (ref_files : list ref_file)
    (counts : Counter) : result Counter :=
  match ref_files with
  | [] => Ok counts
  | None :: paths => build_reference_counts_loop paths counts
  | Some text :: paths =>
      tokens <- tokenize text ;;
      build_reference_counts_loop paths (update counts tokens)
  end.

Definition build_reference_counts (ref_files : list ref_file)
  : result Counter :=
  build_reference_counts_loop ref_files [].

Definition compute_lexical_confidence (ref_counts : Counter) (word : str)
  : result R :=
  let freq := get ref_counts word 0 in
  if (freq =? 0)%Z then Ok 0%R
  else
    max_freq <- max (values ref_counts) ;;
    if (max_freq <=? 0)%Z then Ok 0%R
    else
      num <- log (1 + freq) ;;
      den <- log (1 + max_freq) ;;
      truediv num den.

(** A row of the report; [lexical_confidence] is the value that the
    script then formats to four decimals. *)
Record row := {
  word : str;
  frequency_in_target : Z;
  frequency_in_reference : Z;
  in_reference : bool;
  lexical_confidence : R
}.

(** Step 3 of [build_report]: one row per item of [target_counts], in
    the order of [sorted(..., key=lambda wf: (-wf[1], wf[0]))]. *)
Definition report_row (ref_counts : Counter) (wf : str * Z) : result row :=
  let freq_ref := get ref_counts (fst wf) 0 in
  let in_ref := (freq_ref >? 0)%Z in
  lexical_conf <- compute_lexical_confidence ref_counts (fst wf) ;;
  Ok {| word := fst wf;
        frequency_in_target := snd wf;
        frequency_in_reference := freq_ref;
        in_reference := in_ref;
        lexical_confidence := lexical_conf |}.

Definition report_rows (ref_counts target_counts : Counter)
  : result (list row) :=
  mapM (report_row ref_counts)
       (sorted key_ltb (fun wf => ((- snd wf)%Z, fst wf))
               (items target_counts)).

(** [build_report] up to the rows it hands to the CSV writer. *)
Definition build_report (ref_files : list ref_file) (target_text : str)
  : result (list row) :=
  ref_counts <- build_reference_counts ref_files ;;
  target_tokens <- tokenize target_text ;;
  let target_counts := update [] target_tokens in
  report_rows ref_counts target_counts.

End LexicalConfidence.

(* ===================================================================== *)
(** * ocr_middle_dutch_false_confidence_list.py *)
(* ===================================================================== *)

Module FalseConfidenceList.
Import Py.
Local Open Scope py_scope.

(** The pattern as the source file has it: A-Z, a-z and the range from
    U+00C0 to U+00FF. *)
Definition tokenize_pattern : str := lit "[A-Za-zÀ-ÿ]+".

Definition tokenize (text : str) : result (list str) :=
  tokens <- findall tokenize_pattern text ;;
  Ok (map lower tokens).

Definition ref_file := option str.

Fixpoint build_reference_counts_loop (ref_files : list ref_file)
    (counts : Counter) : result Counter :=
  match ref_files with
  | [] => Ok counts
  | None :: paths => build_reference_counts_loop paths counts
  | Some text :: paths =>
      tokens <- tokenize text ;;
      build_reference_counts_loop paths (update counts tokens)
  end.

Definition build_reference_counts (ref_files : list ref_file)
  : result Counter :=
  build_reference_counts_loop ref_files [].

Definition roman_pattern : str := lit "[ivxlcdmIVXLCDM]+".

Definition is_roman_numeral (word : str) : result bool :=
  fullmatch roman_pattern word.

Record row := {
  word : str;
  frequency_in_target : Z
}.

(** The body of the loop of step 3 on one item of [target_counts]:
    [None] for [continue], [Some r] when [r] is appended. *)
Definition select_row (ref_counts : Counter) (wf : str * Z)
  : result (option row) :=
  let freq_ref := get ref_counts (fst wf) 0 in
  if (freq_ref >? 0)%Z then Ok None
  else
    roman <- is_roman_numeral (fst wf) ;;
    if roman then Ok None
    else Ok (Some {| word := fst wf; frequency_in_target := snd wf |}).

Fixpoint appended {A} (l : list (option A)) : list A :=
  match l with
  | [] => []
  | Some a :: l' => a :: appended l'
  | None :: l' => appended l'
  end.

Definition select_rows (ref_counts target_counts : Counter)
  : result (list row) :=
  picked <- mapM (select_row ref_counts) (items target_counts) ;;
  Ok (appended picked).

(** [build_false_confidence_list] up to the rows it hands to the CSV
    writer. *)
Definition build_false_confidence_list (ref_files : list ref_file)
    (target_text : str) : result (list row) :=
  ref_counts <- build_reference_counts ref_files ;;
  target_tokens <- tokenize target_text ;;
  let target_counts := update [] target_tokens in
  rows <- select_rows ref_counts target_counts ;;
  Ok (sorted key_ltb (fun r => (frequency_in_target r, word r)) rows).

End FalseConfidenceList.

(* ===================================================================== *)
(** * More of the Python runtime: whitespace, [join], [split], [rfind] *)
(* ===================================================================== *)

Module PyStr.
Import Py.

(** [str.isspace] of one character, which is also what [\s] matches in
    a [str] pattern and what [strip] and [split] take for whitespace. *)
Definition is_space (c : N) : bool :=
  (((0x09 <=? c) && (c <=? 0x0D)) || ((0x1C <=? c) && (c <=? 0x20))
   || (c =? 0x85) || (c =? 0xA0) || (c =? 0x1680)
   || ((0x2000 <=? c) && (c <=? 0x200A))
   || (c =? 0x2028) || (c =? 0x2029) || (c =? 0x202F) || (c =? 0x205F)
   || (c =? 0x3000))%N.

Fixpoint lstrip (s : str) : str :=
  match s with
  | [] => []
  | c :: s' => if is_space c then lstrip s' else s
  end.

Definition rstrip (s : str) : str := rev (lstrip (rev s)).

Definition strip (s : str) : str := lstrip (rstrip s).

(** [sep.join(parts)]. *)
Fixpoint join (sep : str) (parts : list str) : str :=
  match parts with
  | [] => []
  | p :: rest =>
      match rest with
      | [] => p
      | _ :: _ => p ++ sep ++ join sep rest
      end
  end.

(** [text.split()]: the maximal runs of characters that are no
    whitespace; [word] is the run in progress. *)
Fixpoint split_run (text word : str) : list str :=
  match text with
  | [] => flush word []
  | c :: text' =>
      if is_space c then flush word (split_run text' [])
      else split_run text' (word ++ [c])
  end.

Definition split (text : str) : list str := split_run text [].

(** [re.sub(r'\s+', ' ', text)]: every maximal run of whitespace becomes
    one space; [in_run] tells that the run has been replaced already. *)
Fixpoint sub_whitespace (text : str) (in_run : bool) : str :=
  match text with
  | [] => []
  | c :: text' =>
      if is_space c then
        if in_run then sub_whitespace text' true
        else 0x20%N :: sub_whitespace text' true
      else c :: sub_whitespace text' false
  end.

(** [s.endswith(suffix)]. *)
Definition endswith (s suffix : str) : bool :=
  str_eqb (skipn (List.length s - List.length suffix) s) suffix.

(** [s.rfind(c)] for a character [c]: the highest index of [c] in [s],
    -1 when there is none. *)
Fixpoint rfind (c : N) (s : str) : Z :=
  match s with
  | [] => (-1)%Z
  | d :: s' =>
      let i := rfind c s' in
      if (0 <=? i)%Z then (i + 1)%Z
      else if (d =? c)%N then 0%Z else (-1)%Z
  end.

End PyStr.

(* ===================================================================== *)
(** * The reference files of [build_reference_counts] (both scripts) *)
(* ===================================================================== *)

Module ReferenceFiles.
Import Py PyStr.

(** What [ref_dir.rglob("*")] yields, as far as the scripts look at it:
    whether the path is a regular file, its final component, and what
    [read_text] gives ([None] when it raises). *)
Record path := {
  is_file : bool;
  name : str;
  read_text : option str
}.

(** [PurePath.suffix]: the final component from its last period on,
    unless that period is its first or its last character. *)
Definition suffix (p : path) : str :=
  let i := rfind 0x2E (name p) in
  if ((0 <? i) && (i <? Z.of_nat (List.length (name p)) - 1))%Z
  then skipn (Z.to_nat i) (name p)
  else [].

Definition allowed_exts : list str :=
  [lit ".txt"; lit ".xml"; lit ".vrt"; lit ".csv"; lit ".tsv"].

(** [p.is_file() and p.suffix.lower() in allowed_exts].  ([lower] is
    exact for this test on every suffix: from U+0100 on only U+0130 and
    U+212A have a lowercase that holds an ASCII character, an i and a k,
    and neither letter is in an extension of the list.) *)
Definition allowed (p : path) : bool :=
  is_file p && existsb (str_eqb (lower (suffix p))) allowed_exts.

Definition ref_files (rglob : list path) : list path := filter allowed rglob.

End ReferenceFiles.

(* ===================================================================== *)
(** * xml_to_txt/xml_to_txt_body.py *)
(* ===================================================================== *)

Module XmlToTxt.
Import Py PyStr.

(** An element of the tree that [ET.parse] returns: its tag, its text,
    its tail and its children. *)
#[local] Set Warnings "-register-all".
Inductive Element :=
| Node (tag : str) (text tail : option str) (children : list Element).

Definition tag (e : Element) : str :=
  match e with Node t _ _ _ => t end.

Definition tail (e : Element) : option str :=
  match e with Node _ _ t _ => t end.

(** [if t: yield t]. *)
Definition yield_text (t : option str) : list str :=
  match t with
  | Some (c :: s) => [c :: s]
  | _ => []
  end.

(** [Element.iter()]: the element, then its descendants, in document
    order. *)
Fixpoint iter (e : Element) : list Element :=
  match e with
  | Node _ _ _ children =>
      e :: (fix iter_all (es : list Element) : list Element :=
              match es with
              | [] => []
              | c :: es' => iter c ++ iter_all es'
              end) children
  end.

(** [Element.itertext()]: the text of the element, then for each child
    its own [itertext] followed by its tail. *)
Fixpoint itertext (e : Element) : list str :=
  match e with
  | Node _ text _ children =>
      yield_text text
      ++ (fix itertext_all (es : list Element) : list str :=
            match es with
            | [] => []
            | c :: es' => itertext c ++ yield_text (tail c) ++ itertext_all es'
            end) children
  end.

(** The loop that looks for the body: the first element, in document
    order, whose lowercased tag ends with [body].  ([lower] is exact
    here on every tag: no character from U+0100 on has a lowercase that
    ends in one of the letters b, o, d, y.) *)
Definition find_body (root : Element) : option Element :=
  find (fun elem => endswith (lower (tag elem)) (lit "body")) (iter root).

(** [extract_body_text] on the parsed tree. *)
Definition extract_body_text (root : Element) : str :=
  let text :=
    match find_body root with
    | None => join [] (itertext root)
    | Some body => join [] (itertext body)
    end in
  let text := sub_whitespace text false in
  strip text.

End XmlToTxt.

(* ===================================================================== *)
(** * Split_Chapters/extract_chapters_custom.py: the short title *)
(* ===================================================================== *)

Module ExtractChaptersCustom.
Import Py PyStr.

Section ShortTitle.

(** [str.lower] on the words of a title, which can hold any character. *)
Variable str_lower : str -> str.

Definition keywords : list str := [lit "mater"; lit "suster"; lit "vrouwen"].

(** [w in words] for a list of strings. *)
Definition contains (words : list str) (w : str) : bool :=
  existsb (str_eqb w) words.

(** The loop over [enumerate(title_lower)]: [rest] is what is left of
    [title_lower], [idx] the index reached; [None] stands for the
    [IndexError] of [title_words[idx]]. *)
Fixpoint title_loop (title_words rest : list str) (idx : nat)
    (title_extract : list str) : option (list str) :=
  match rest with
  | [] => Some title_extract
  | word :: rest' =>
      match nth_error title_words idx with
      | None => None
      | Some w =>
          let title_extract := title_extract ++ [w] in
          if contains keywords word
          then Some (title_extract ++ skipn (idx + 1) title_words)
          else title_loop title_words rest' (idx + 1) title_extract
      end
  end.

(** From [title_line], the second group of a match, to [short_title]. *)
Definition short_title (title_line : str) : option str :=
  let title_words := split (strip (removelast title_line)) in
  let title_lower := map str_lower title_words in
  match
    (if existsb (contains title_lower) keywords
     then title_loop title_words title_lower 0 []
     else Some title_words)
  with
  | Some title_extract => Some (join (lit "_") title_extract)
  | None => None
  end.

End ShortTitle.

End ExtractChaptersCustom.

(* ===================================================================== *)
(** * Vocabulary of the properties *)
(* ===================================================================== *)

Import Py.
Local Open Scope py_scope.
Local Open Scope Z_scope.

(** Ascending lexicographic order of strings, by code point. *)
Inductive lex_lt : str -> str -> Prop :=
| lex_lt_prefix : forall d t, lex_lt [] (d :: t)
| lex_lt_here : forall c d s t, (c < d)%N -> lex_lt (c :: s) (d :: t)
| lex_lt_later : forall c s t, lex_lt s t -> lex_lt (c :: s) (c :: t).

Definition str_eq_dec : forall s t : str, {s = t} + {s <> t} :=
  list_eq_dec N.eq_dec.

(** Number of occurrences of a token in a sequence of tokens. *)
Definition occ (t : str) (tokens : list str) : Z :=
  Z.of_nat (count_occ str_eq_dec tokens t).

(** The count of a token in a model: absent tokens count 0. *)
Definition count (m : Counter) (t : str) : Z := get m t 0.

(** Sum of all the counts of a model. *)
Definition total (m : Counter) : Z := fold_right Z.add 0 (values m).

(** The invariant of a frequency model: no token is present with a count
    below 1. *)
Definition frequency_model (m : Counter) : Prop :=
  Forall (fun kv => 1 <= snd kv) m.

(** The model of the reference corpus with the one file [die die minne]. *)
Definition die_die_minne : Counter := [(lit "die", 2); (lit "minne", 1)].

(** Order of the rows of the full report: descending frequency in the
    target, ties in ascending order of the word. *)
Definition full_report_order (r1 r2 : LexicalConfidence.row) : Prop :=
  LexicalConfidence.frequency_in_target r2
    < LexicalConfidence.frequency_in_target r1
  \/ (LexicalConfidence.frequency_in_target r1
      = LexicalConfidence.frequency_in_target r2
      /\ lex_lt (LexicalConfidence.word r1) (LexicalConfidence.word r2)).

(** Order of the rows of the false-confidence report: ascending frequency
    in the target, ties in ascending order of the word. *)
Definition false_confidence_order (r1 r2 : FalseConfidenceList.row) : Prop :=
  FalseConfidenceList.frequency_in_target r1
    < FalseConfidenceList.frequency_in_target r2
  \/ (FalseConfidenceList.frequency_in_target r1
      = FalseConfidenceList.frequency_in_target r2
      /\ lex_lt (FalseConfidenceList.word r1) (FalseConfidenceList.word r2)).

(** The tokens the false-confidence script takes from a reference file:
    none from a file it cannot read. *)
Definition file_tokens (f : FalseConfidenceList.ref_file) : list str :=
  match f with
  | None => []
  | Some text =>
      match FalseConfidenceList.tokenize text with
      | Ok tokens => tokens
      | Raise _ => []
      end
  end.

(** Sum of the per-file token counts of a corpus. *)
Definition tokens_in_files (files : list FalseConfidenceList.ref_file) : Z :=
  fold_right Z.add 0 (map (fun f => Z.of_nat (List.length (file_tokens f))) files).

(** A reference file whose [read_text] raises. *)
Definition unreadable (f : option str) : bool :=
  match f with None => true | Some _ => false end.

(** The character set of [is_roman_numeral]. *)
Definition roman_set : list set_item := map LITERAL (lit "ivxlcdmIVXLCDM").

(** The decision of the loop of step 3 on an item: [true] when a row is
    appended for it. *)
Definition kept (m : Counter) (wf : str * Z) : bool :=
  negb (get m (fst wf) 0 >? 0)
  && negb (negb (is_nil (fst wf)) && forallb (in_set roman_set) (fst wf)).

Definition row_for (wf : str * Z) : FalseConfidenceList.row :=
  {| FalseConfidenceList.word := fst wf;
     FalseConfidenceList.frequency_in_target := snd wf |}.

(** The character set of the tokenizer of the false-confidence script. *)
Definition letters : list set_item :=
  [RANGE 0x41 0x5A; RANGE 0x61 0x7A; RANGE 0xC0 0xFF].

(** The order of the keys [(int, str)]. *)
Definition key_lt (k1 k2 : Z * str) : Prop :=
  fst k1 < fst k2 \/ (fst k1 = fst k2 /\ lex_lt (snd k1) (snd k2)).

(** In a sorted list [x] may stand before [y]: the key of [y] is not
    below that of [x]. *)
Definition not_after {A : Type} (key : A -> Z * str) (x y : A) : Prop :=
  key_ltb (key y) (key x) = false.

(** What [report_row] makes of an item of the target counts. *)
Definition row_of (m : Counter) (wf : str * Z) (r : LexicalConfidence.row)
  : Prop :=
  LexicalConfidence.word r = fst wf
  /\ LexicalConfidence.frequency_in_target r = snd wf
  /\ LexicalConfidence.frequency_in_reference r = count m (fst wf)
  /\ (LexicalConfidence.in_reference r = true
      <-> (0 < LexicalConfidence.lexical_confidence r)%R).


(** The keys of a dictionary are pairwise distinct. *)
Definition distinct_keys (m : Counter) : Prop := NoDup (map fst m).

(** The lowercase letters of Basic Latin and of the Latin-1 Supplement:
    a-z, the ordinal indicators and the micro sign, and U+00DF-U+00FF
    without the division sign U+00F7. *)
Definition lowercase_alphabetic (c : N) : bool :=
  (((0x61 <=? c) && (c <=? 0x7A))
   || (c =? 0xAA) || (c =? 0xB5) || (c =? 0xBA)
   || ((0xDF <=? c) && (c <=? 0xF6))
   || ((0xF8 <=? c) && (c <=? 0xFF)))%N.

(** The letters i, v, x, l, c, d, m in either case. *)
Definition roman_letter (c : N) : Prop :=
  In c (lit "ivxlcdm") \/ In c (lit "IVXLCDM").

(** The extensions of the allow-list, without their period. *)
Definition extensions : list str :=
  [lit "txt"; lit "xml"; lit "vrt"; lit "csv"; lit "tsv"].

(** [ext] spells the lowercase word [e], each letter in either case. *)
Definition spells_ignoring_case (ext e : str) : Prop :=
  Forall2 (fun c l => c = l \/ ((0x41 <= c <= 0x5A)%N /\ (c + 32)%N = l)) ext e.

(** The element whose text [extract_body_text] takes, and that text
    before its whitespace is collapsed. *)
Definition body_or_root (root : XmlToTxt.Element) : XmlToTxt.Element :=
  match XmlToTxt.find_body root with
  | Some body => body
  | None => root
  end.

Definition raw_text (root : XmlToTxt.Element) : str :=
  PyStr.join [] (XmlToTxt.itertext (body_or_root root)).

(** Whitespace occurs in [s] only as single spaces; with [after_space]
    not at its start either. *)
Fixpoint spaced_once (s : str) (after_space : bool) : bool :=
  match s with
  | [] => true
  | c :: s' =>
      if PyStr.is_space c
      then (c =? 0x20)%N && negb after_space && spaced_once s' true
      else spaced_once s' false
  end.

(* ===================================================================== *)
(** * Strings *)
(* ===================================================================== *)

Lemma str_eqb_eq (s t : str) : str_eqb s t = true <-> s = t.
Proof.
  revert t; induction s as [|c s IH]; intros [|d t]; simpl;
    try (split; (discriminate || reflexivity)).
  rewrite andb_true_iff, N.eqb_eq, IH. split.
  - intros [-> ->]; reflexivity.
  - intros [= -> ->]; auto.
Qed.

Lemma str_eqb_refl (s : str) : str_eqb s s = true.
Proof. apply str_eqb_eq; reflexivity. Qed.

Lemma str_eqb_neq (s t : str) : str_eqb s t = false <-> s <> t.
Proof.
  rewrite <- str_eqb_eq. destruct (str_eqb s t); split; congruence.
Qed.

Lemma str_ltb_lt (s t : str) : str_ltb s t = true <-> lex_lt s t.
Proof.
  revert t; induction s as [|c s IH]; intros [|d t]; simpl.
  - split; [discriminate | inversion 1].
  - split; [constructor | reflexivity].
  - split; [discriminate | inversion 1].
  - destruct (N.eqb_spec c d) as [->|Hcd].
    + rewrite IH. split; [now constructor|].
      inversion 1; subst; [lia | assumption].
    + rewrite N.ltb_lt. split; [now constructor|].
      inversion 1; subst; [assumption | congruence].
Qed.

Lemma lex_lt_irrefl (s : str) : ~ lex_lt s s.
Proof.
  induction s as [|c s IH]; inversion 1; subst; [lia | auto].
Qed.

Lemma lex_lt_trans (s t u : str) : lex_lt s t -> lex_lt t u -> lex_lt s u.
Proof.
  intros Hst; revert u; induction Hst; intros u Htu; inversion Htu; subst.
  - constructor.
  - constructor.
  - apply lex_lt_here; lia.
  - apply lex_lt_here; assumption.
  - apply lex_lt_here; assumption.
  - apply lex_lt_later; auto.
Qed.

Lemma lex_lt_total (s t : str) : lex_lt s t \/ s = t \/ lex_lt t s.
Proof.
  revert t; induction s as [|c s IH]; intros [|d t].
  - auto.
  - left; constructor.
  - right; right; constructor.
  - destruct (N.lt_total c d) as [H|[->|H]].
    + left; now constructor.
    + destruct (IH t) as [H|[->|H]];
        [left | right; left | right; right]; (reflexivity || now constructor).
    + right; right; now constructor.
Qed.

(* ===================================================================== *)
(** * Counter *)
(* ===================================================================== *)

Lemma occ_cons (t k : str) (tokens : list str) :
  occ t (k :: tokens) = occ t tokens + (if str_eqb t k then 1 else 0).
Proof.
  unfold occ; simpl. destruct (str_eq_dec k t) as [->|Hne].
  - rewrite str_eqb_refl; lia.
  - assert (str_eqb t k = false) as -> by (apply str_eqb_neq; congruence). lia.
Qed.

Lemma count_incr (m : Counter) (k t : str) :
  count (incr m k) t = count m t + (if str_eqb t k then 1 else 0).
Proof.
  unfold count. induction m as [|[k' v] m IH]; simpl.
  - destruct (str_eqb t k); reflexivity.
  - destruct (str_eqb k k') eqn:Hk; simpl.
    + apply str_eqb_eq in Hk; subst k'.
      destruct (str_eqb t k); lia.
    + destruct (str_eqb t k') eqn:Ht; [|exact IH].
      apply str_eqb_eq in Ht; subst k'.
      assert (str_eqb t k = false) as ->; [|lia].
      apply str_eqb_neq. apply str_eqb_neq in Hk. congruence.
Qed.

Lemma count_update (tokens : list str) (m : Counter) (t : str) :
  count (update m tokens) t = count m t + occ t tokens.
Proof.
  unfold update. revert m; induction tokens as [|k tokens IH]; intros m; simpl.
  - unfold occ; simpl; lia.
  - rewrite IH, count_incr, occ_cons. lia.
Qed.

Lemma keys_incr (m : Counter) (k t : str) :
  In t (map fst (incr m k)) <-> t = k \/ In t (map fst m).
Proof.
  induction m as [|[k' v] m IH]; simpl.
  - intuition congruence.
  - destruct (str_eqb k k') eqn:Hk; simpl.
    + apply str_eqb_eq in Hk; subst. intuition congruence.
    + rewrite IH. intuition.
Qed.

Lemma keys_update (tokens : list str) (m : Counter) (t : str) :
  In t (map fst (update m tokens)) <-> In t tokens \/ In t (map fst m).
Proof.
  unfold update. revert m; induction tokens as [|k tokens IH]; intros m; simpl.
  - intuition.
  - rewrite IH, keys_incr. intuition congruence.
Qed.

Lemma distinct_keys_incr (m : Counter) (k : str) :
  distinct_keys m -> distinct_keys (incr m k).
Proof.
  unfold distinct_keys. induction m as [|[k' v] m IH]; simpl; intros Hnd.
  - constructor; [intros [] | constructor].
  - inversion Hnd as [|? ? Hnot Hnd']; subst.
    destruct (str_eqb k k') eqn:Hk; simpl.
    + constructor; assumption.
    + constructor; [|auto].
      rewrite keys_incr. intros [->|Hin]; [|contradiction].
      rewrite str_eqb_refl in Hk; discriminate.
Qed.

Lemma distinct_keys_update (tokens : list str) (m : Counter) :
  distinct_keys m -> distinct_keys (update m tokens).
Proof.
  unfold update. revert m; induction tokens as [|k tokens IH]; intros m Hm; simpl.
  - assumption.
  - apply IH, distinct_keys_incr, Hm.
Qed.

Lemma frequency_model_incr (m : Counter) (k : str) :
  frequency_model m -> frequency_model (incr m k).
Proof.
  unfold frequency_model. induction m as [|[k' v] m IH]; simpl; intros Hm.
  - constructor; [simpl; lia | constructor].
  - inversion Hm as [|? ? Hv Hm']; subst; simpl in Hv.
    destruct (str_eqb k k'); constructor; simpl; auto; lia.
Qed.

Lemma frequency_model_update (tokens : list str) (m : Counter) :
  frequency_model m -> frequency_model (update m tokens).
Proof.
  unfold update. revert m; induction tokens as [|k tokens IH]; intros m Hm; simpl.
  - assumption.
  - apply IH, frequency_model_incr, Hm.
Qed.

Lemma total_incr (m : Counter) (k : str) : total (incr m k) = total m + 1.
Proof.
  unfold total, values. induction m as [|[k' v] m IH]; simpl.
  - reflexivity.
  - destruct (str_eqb k k'); simpl; lia.
Qed.

Lemma total_update (tokens : list str) (m : Counter) :
  total (update m tokens) = total m + Z.of_nat (List.length tokens).
Proof.
  unfold update. revert m; induction tokens as [|k tokens IH]; intros m.
  - simpl; lia.
  - cbn [fold_left List.length]. rewrite IH, total_incr. lia.
Qed.

Lemma count_of_item (m : Counter) (w : str) (f : Z) :
  distinct_keys m -> In (w, f) m -> count m w = f.
Proof.
  unfold distinct_keys, count. induction m as [|[k v] m IH]; simpl; intros Hnd Hin.
  - contradiction.
  - inversion Hnd as [|? ? Hnot Hnd']; subst.
    destruct Hin as [[= -> ->]|Hin].
    + now rewrite str_eqb_refl.
    + destruct (str_eqb w k) eqn:Hwk; [|auto].
      apply str_eqb_eq in Hwk; subst k.
      exfalso; apply Hnot. apply (in_map fst) in Hin; exact Hin.
Qed.

Lemma count_present (m : Counter) (w : str) :
  In w (map fst m) -> In (w, count m w) m.
Proof.
  unfold count. induction m as [|[k v] m IH]; simpl; [tauto|].
  destruct (str_eqb w k) eqn:Hwk.
  - apply str_eqb_eq in Hwk; subst; auto.
  - intros [->|Hin]; [rewrite str_eqb_refl in Hwk; discriminate | auto].
Qed.

(** The items of [Counter(tokens)]: the distinct tokens, each with its
    number of occurrences. *)
Lemma items_of_tokens (tokens : list str) (w : str) (f : Z) :
  In (w, f) (items (update [] tokens)) <-> In w tokens /\ f = occ w tokens.
Proof.
  unfold items.
  assert (Hnd : distinct_keys (update [] tokens))
    by (apply distinct_keys_update; constructor).
  split.
  - intros Hin. pose proof (count_of_item _ _ _ Hnd Hin) as Hc.
    rewrite count_update in Hc. unfold count in Hc; simpl in Hc.
    apply (in_map fst) in Hin; simpl in Hin. rewrite keys_update in Hin.
    simpl in Hin. intuition lia.
  - intros [Hin ->].
    assert (Hk : In w (map fst (update [] tokens)))
      by (rewrite keys_update; auto).
    apply count_present in Hk. rewrite count_update in Hk.
    unfold count in Hk at 1; simpl in Hk. exact Hk.
Qed.

(* ===================================================================== *)
(** * Patterns and the scan of [findall] *)
(* ===================================================================== *)

(** The code points of the two tokenizer patterns. *)
Example lexical_confidence_pattern_code_points :
  LexicalConfidence.tokenize_pattern
  = [0x5B; 0x41; 0x2D; 0x5A; 0x61; 0x2D; 0x7A;
     0xC3; 0x20AC; 0x2D; 0xC3; 0xBF; 0x5D; 0x2B]%N.
Proof. reflexivity. Qed.

Example false_confidence_pattern_code_points :
  FalseConfidenceList.tokenize_pattern
  = [0x5B; 0x41; 0x2D; 0x5A; 0x61; 0x2D; 0x7A; 0xC0; 0x2D; 0xFF; 0x5D; 0x2B]%N.
Proof. reflexivity. Qed.

Lemma compile_lexical_confidence_pattern :
  compile LexicalConfidence.tokenize_pattern
  = Raise (re_error (bad_character_range 0x20AC 0xC3)).
Proof. reflexivity. Qed.

Lemma compile_false_confidence_pattern :
  compile FalseConfidenceList.tokenize_pattern = Ok (IN_PLUS letters).
Proof. reflexivity. Qed.

Lemma compile_roman_pattern :
  compile FalseConfidenceList.roman_pattern
  = Ok (IN_PLUS (map LITERAL (lit "ivxlcdmIVXLCDM"))).
Proof. reflexivity. Qed.

Lemma flush_Forall (P : str -> Prop) (run : str) (ms : list str) :
  (run <> [] -> P run) -> Forall P ms -> Forall P (flush run ms).
Proof.
  intros Hrun Hms. destruct run; simpl; [assumption|].
  constructor; [apply Hrun; discriminate | assumption].
Qed.

(** Every match is a non-empty run of characters of the set. *)
Lemma scan_matches (set : list set_item) (text run : str) :
  Forall (fun c => in_set set c = true) run ->
  Forall (fun m => m <> [] /\ Forall (fun c => in_set set c = true) m)
         (scan set text run).
Proof.
  revert run; induction text as [|c text IH]; intros run Hrun; simpl.
  - apply flush_Forall; auto.
  - destruct (in_set set c) eqn:Hc.
    + apply IH. apply Forall_app; split; [assumption|]. constructor; auto.
    + apply flush_Forall; auto.
Qed.

Lemma in_letters (c : N) :
  in_set letters c = true <->
  (0x41 <= c <= 0x5A \/ 0x61 <= c <= 0x7A \/ 0xC0 <= c <= 0xFF)%N.
Proof.
  unfold in_set, letters; simpl.
  rewrite !orb_true_iff, !andb_true_iff, !N.leb_le. intuition discriminate.
Qed.

(** What [lower] makes of a character of [letters]: a lowercase letter,
    or one of the two signs that lie inside the range U+00C0-U+00FF. *)
Lemma lower_char_letters (c : N) :
  in_set letters c = true ->
  lowercase_alphabetic (lower_char c) = true
  \/ lower_char c = 0xD7%N \/ lower_char c = 0xF7%N.
Proof.
  rewrite in_letters. intros Hc.
  assert (Hcases : (c <= 0xFF)%N) by lia.
  assert (Hfin : In c (map N.of_nat (seq 0 256))).
  { apply in_map_iff. exists (N.to_nat c). split; [lia|].
    apply in_seq. lia. }
  revert Hc. clear Hcases.
  assert (Hall : forallb (fun c =>
            negb (in_set letters c)
            || lowercase_alphabetic (lower_char c)
            || (lower_char c =? 0xD7)%N || (lower_char c =? 0xF7)%N)
            (map N.of_nat (seq 0 256)) = true) by (vm_compute; reflexivity).
  rewrite forallb_forall in Hall. specialize (Hall c Hfin).
  intros Hc. apply in_letters in Hc. rewrite Hc in Hall. simpl in Hall.
  rewrite !orb_true_iff, !N.eqb_eq in Hall. tauto.
Qed.

Lemma tokenize_false_confidence (text : str) :
  FalseConfidenceList.tokenize text = Ok (map lower (scan letters text [])).
Proof. reflexivity. Qed.

(** The tokens of the false-confidence script: never empty, made of
    lowercase letters and of the multiplication and division signs. *)
Lemma false_confidence_tokens_shape (text : str) (tokens : list str) :
  FalseConfidenceList.tokenize text = Ok tokens ->
  Forall (fun t => t <> [] /\
            Forall (fun c => lowercase_alphabetic c = true
                             \/ c = 0xD7%N \/ c = 0xF7%N) t) tokens.
Proof.
  rewrite tokenize_false_confidence. intros [= <-].
  pose proof (scan_matches letters text [] (Forall_nil _)) as Hs.
  induction Hs as [|m ms [Hne Hm] _ IH]; simpl; constructor; auto.
  split.
  - destruct m; [congruence | discriminate].
  - unfold lower. clear Hne. induction Hm as [|c m Hc _ IHm]; simpl;
      constructor; auto using lower_char_letters.
Qed.

(* ===================================================================== *)
(** * [sorted] *)
(* ===================================================================== *)

Lemma key_ltb_lt (k1 k2 : Z * str) : key_ltb k1 k2 = true <-> key_lt k1 k2.
Proof.
  unfold key_ltb, key_lt. destruct (Z.eqb_spec (fst k1) (fst k2)) as [He|Hne].
  - rewrite str_ltb_lt. intuition lia.
  - rewrite Z.ltb_lt. intuition lia.
Qed.

Lemma key_lt_irrefl (k : Z * str) : ~ key_lt k k.
Proof.
  intros [H|[_ H]]; [lia | exact (lex_lt_irrefl _ H)].
Qed.

Lemma key_lt_trans (k1 k2 k3 : Z * str) :
  key_lt k1 k2 -> key_lt k2 k3 -> key_lt k1 k3.
Proof.
  unfold key_lt. intros [H1|[H1 L1]] [H2|[H2 L2]]; try (left; lia).
  right; split; [lia | eapply lex_lt_trans; eassumption].
Qed.

Lemma key_lt_total (k1 k2 : Z * str) : key_lt k1 k2 \/ k1 = k2 \/ key_lt k2 k1.
Proof.
  destruct k1 as [a s], k2 as [b t]; unfold key_lt; simpl.
  destruct (Z.lt_total a b) as [H|[->|H]]; [auto | | auto].
  destruct (lex_lt_total s t) as [H|[->|H]]; auto.
Qed.

Section SortedFacts.
Context {A : Type} (key : A -> Z * str).

Lemma not_after_trans (x y z : A) :
  not_after key x y -> not_after key y z -> not_after key x z.
Proof.
  unfold not_after. intros Hxy Hyz.
  destruct (key_ltb (key z) (key x)) eqn:Hzx; [|reflexivity].
  apply key_ltb_lt in Hzx.
  destruct (key_lt_total (key y) (key x)) as [H|[H|H]].
  - apply key_ltb_lt in H; congruence.
  - rewrite H in Hyz. apply key_ltb_lt in Hzx; congruence.
  - pose proof (key_lt_trans _ _ _ Hzx H) as Hzy.
    apply key_ltb_lt in Hzy; congruence.
Qed.

Lemma insert_perm (x : A) (l : list A) :
  Permutation (insert key_ltb key x l) (x :: l).
Proof.
  induction l as [|y l IH]; simpl; [reflexivity|].
  destruct (key_ltb (key y) (key x)); [|reflexivity].
  rewrite IH. apply perm_swap.
Qed.

Lemma sorted_perm (l : list A) : Permutation (sorted key_ltb key l) l.
Proof.
  induction l as [|x l IH]; simpl; [reflexivity|].
  rewrite insert_perm. now constructor.
Qed.

Lemma insert_sorted (x : A) (l : list A) :
  StronglySorted (not_after key) l ->
  StronglySorted (not_after key) (insert key_ltb key x l).
Proof.
  induction 1 as [|y l Hl IH Hy]; simpl.
  - repeat constructor.
  - destruct (key_ltb (key y) (key x)) eqn:Hyx.
    + constructor; [assumption|].
      apply Forall_forall. intros z Hz.
      apply (Permutation_in _ (insert_perm x l)) in Hz.
      destruct Hz as [<-|Hz]; [|rewrite Forall_forall in Hy; auto].
      unfold not_after. destruct (key_ltb (key x) (key y)) eqn:Hxy; [|reflexivity].
      apply key_ltb_lt in Hyx, Hxy.
      exfalso. exact (key_lt_irrefl _ (key_lt_trans _ _ _ Hyx Hxy)).
    + constructor; [constructor; assumption|].
      constructor; [exact Hyx|].
      eapply Forall_impl; [|exact Hy].
      intros z Hyz. eapply not_after_trans; [exact Hyx | exact Hyz].
Qed.

Lemma sorted_sorted (l : list A) :
  StronglySorted (not_after key) (sorted key_ltb key l).
Proof.
  induction l as [|x l IH]; simpl; [constructor | now apply insert_sorted].
Qed.

(** With pairwise distinct keys the result ascends strictly. *)
Lemma sorted_strict (l : list A) :
  NoDup (map key l) ->
  StronglySorted (fun x y => key_lt (key x) (key y)) (sorted key_ltb key l).
Proof.
  intros Hnd.
  assert (Hnd' : NoDup (map key (sorted key_ltb key l))).
  { eapply Permutation_NoDup; [|exact Hnd].
    apply Permutation_map, Permutation_sym, sorted_perm. }
  pose proof (sorted_sorted l) as Hs.
  induction Hs as [|x r Hr IH Hx]; [constructor|].
  simpl in Hnd'. inversion Hnd' as [|? ? Hnot Hnd'']; subst.
  constructor; [auto|].
  rewrite Forall_forall in Hx |- *. intros y Hy.
  specialize (Hx y Hy). unfold not_after in Hx.
  destruct (key_lt_total (key x) (key y)) as [H|[H|H]].
  - exact H.
  - exfalso. apply Hnot. rewrite H. now apply in_map.
  - apply key_ltb_lt in H; congruence.
Qed.

End SortedFacts.

(* ===================================================================== *)
(** * The scorer *)
(* ===================================================================== *)

Lemma fold_max_spec (l : list Z) (x : Z) :
  x <= fold_left Z.max l x
  /\ Forall (fun y => y <= fold_left Z.max l x) l
  /\ (fold_left Z.max l x = x \/ In (fold_left Z.max l x) l).
Proof.
  revert x; induction l as [|y l IH]; intros x; simpl.
  - repeat split; auto; lia.
  - destruct (IH (Z.max x y)) as (Hle & Hall & Hin).
    repeat split.
    + lia.
    + constructor; [lia | assumption].
    + destruct Hin as [Hin|Hin]; [|auto].
      rewrite Hin. destruct (Z.max_spec x y) as [[_ ->]|[_ ->]]; auto.
Qed.

Lemma max_spec (l : list Z) (y : Z) :
  In y l ->
  exists M, max l = Ok M /\ y <= M /\ In M l /\ Forall (fun z => z <= M) l.
Proof.
  destruct l as [|x l]; [contradiction|]. intros Hy.
  destruct (fold_max_spec l x) as (Hle & Hall & Hin).
  exists (fold_left Z.max l x). repeat split.
  - destruct Hy as [<-|Hy]; [assumption|].
    rewrite Forall_forall in Hall; auto.
  - destruct Hin as [->|Hin]; [left; reflexivity | right; assumption].
  - constructor; assumption.
Qed.

Lemma count_in_values (m : Counter) (w : str) :
  count m w <> 0 -> In (count m w) (values m).
Proof.
  unfold count, values. induction m as [|[k v] m IH]; simpl; [congruence|].
  destruct (str_eqb w k); auto.
Qed.

Lemma frequency_model_values (m : Counter) (v : Z) :
  frequency_model m -> In v (values m) -> 1 <= v.
Proof.
  unfold frequency_model, values. rewrite Forall_forall.
  intros Hm Hin. apply in_map_iff in Hin. destruct Hin as (kv & <- & Hkv). auto.
Qed.

Lemma ln_IZR_pos (z : Z) : 2 <= z -> (0 < ln (IZR z))%R.
Proof.
  intros Hz. rewrite <- ln_1. apply ln_increasing; [lra|].
  apply IZR_lt. lia.
Qed.

Lemma to_double_small (x : Z) : x < 2 ^ 53 -> to_double x = x.
Proof.
  intros Hx. unfold to_double.
  destruct (Z.ltb_spec x (2 ^ 53)); [reflexivity | lia].
Qed.

(** Rounding to the nearest double keeps an [int] from 2 on at 2 or
    more. *)
Lemma to_double_lower (x : Z) : 2 <= x -> 2 <= to_double x.
Proof.
  intros Hx. unfold to_double.
  destruct (Z.ltb_spec x (2 ^ 53)) as [|Hbig]; [assumption|].
  assert (Hlog : 53 <= Z.log2 x) by (apply Z.log2_le_pow2; lia).
  set (k := Z.log2 x - 52).
  assert (Hk : 1 <= k) by (unfold k; lia).
  assert (H2k : 2 <= 2 ^ k).
  { change 2 with (2 ^ 1) at 1. apply Z.pow_le_mono_r; lia. }
  assert (Hq : 1 <= x / 2 ^ k).
  { apply Z.div_le_lower_bound; [lia|]. rewrite Z.mul_1_r.
    transitivity (2 ^ Z.log2 x).
    - apply Z.pow_le_mono_r; unfold k; lia.
    - apply Z.log2_spec. lia. }
  cbv zeta.
  destruct (_ <? _); [nia|]. destruct (_ <? _); [nia|].
  destruct (Z.even _); nia.
Qed.

Lemma score_unattested (m : Counter) (w : str) :
  count m w = 0 -> LexicalConfidence.compute_lexical_confidence m w = Ok 0%R.
Proof.
  unfold LexicalConfidence.compute_lexical_confidence, count.
  intros ->. reflexivity.
Qed.

Lemma score_degenerate (m : Counter) (w : str) (M : Z) :
  count m w <> 0 -> max (values m) = Ok M -> M <= 0 ->
  LexicalConfidence.compute_lexical_confidence m w = Ok 0%R.
Proof.
  unfold LexicalConfidence.compute_lexical_confidence, count.
  intros Hf HM Hle. apply Z.eqb_neq in Hf. rewrite Hf, HM. cbn [bind].
  apply Z.leb_le in Hle. rewrite Hle. reflexivity.
Qed.

Lemma score_attested (m : Counter) (w : str) :
  frequency_model m -> count m w <> 0 ->
  exists M, max (values m) = Ok M /\ 1 <= count m w <= M
    /\ LexicalConfidence.compute_lexical_confidence m w
       = Ok (ln (IZR (to_double (1 + count m w)))
             / ln (IZR (to_double (1 + M))))%R.
Proof.
  intros Hm Hf.
  pose proof (count_in_values m w Hf) as Hin.
  pose proof (frequency_model_values m _ Hm Hin) as Hpos.
  destruct (max_spec _ _ Hin) as (M & HM & Hle & _ & _).
  exists M. split; [exact HM|]. split; [lia|].
  unfold LexicalConfidence.compute_lexical_confidence. fold (count m w).
  apply Z.eqb_neq in Hf. rewrite Hf, HM. cbn [bind].
  assert (HM0 : (M <=? 0) = false) by (apply Z.leb_gt; lia).
  rewrite HM0. unfold log.
  assert (H1 : (0 <? 1 + count m w) = true) by (apply Z.ltb_lt; lia).
  assert (H2 : (0 <? 1 + M) = true) by (apply Z.ltb_lt; lia).
  rewrite H1, H2. cbn [bind]. unfold truediv.
  destruct (Req_dec_T (ln (IZR (to_double (1 + M)))) 0) as [Heq|_];
    [|reflexivity].
  pose proof (ln_IZR_pos _ (to_double_lower (1 + M) ltac:(lia))). lra.
Qed.

Lemma score_total (m : Counter) (w : str) :
  frequency_model m ->
  exists r, LexicalConfidence.compute_lexical_confidence m w = Ok r
    /\ (count m w = 0 -> r = 0%R)
    /\ (count m w <> 0 -> (0 < r)%R).
Proof.
  intros Hm. destruct (Z.eq_dec (count m w) 0) as [H0|Hne].
  - exists 0%R. rewrite score_unattested by assumption.
    repeat split; (lra || congruence || auto).
  - destruct (score_attested m w Hm Hne) as (M & _ & Hle & ->).
    eexists; split; [reflexivity|]. split; [congruence|]. intros _.
    apply Rdiv_lt_0_compat; apply ln_IZR_pos, to_double_lower; lia.
Qed.

(* ===================================================================== *)
(** * Loops over lists *)
(* ===================================================================== *)

Lemma mapM_total {A B : Type} (f : A -> result B) (P : A -> B -> Prop)
    (l : list A) :
  (forall a, In a l -> exists b, f a = Ok b /\ P a b) ->
  exists bs, mapM f l = Ok bs /\ Forall2 P l bs.
Proof.
  induction l as [|a l IH]; intros Hf; simpl.
  - exists []. split; [reflexivity | constructor].
  - destruct (Hf a (or_introl eq_refl)) as (b & -> & Hb).
    destruct IH as (bs & -> & Hbs); [intros; apply Hf; now right|].
    exists (b :: bs). split; [reflexivity | now constructor].
Qed.

Lemma StronglySorted_Forall2 {A B : Type} (P : A -> B -> Prop)
    (R : A -> A -> Prop) (R' : B -> B -> Prop) (l : list A) (l' : list B) :
  (forall a b a' b', P a a' -> P b b' -> R a b -> R' a' b') ->
  Forall2 P l l' -> StronglySorted R l -> StronglySorted R' l'.
Proof.
  intros HR HP. induction HP as [|a a' l l' Ha HP IH]; intros Hs.
  - constructor.
  - inversion Hs as [|? ? Hs' Hall]; subst. constructor; [auto|].
    clear IH Hs Hs'. induction HP as [|b b' l l' Hb HP IH]; [constructor|].
    inversion Hall; subst. constructor; eauto.
Qed.

Lemma NoDup_map_filter {A B : Type} (g : A -> B) (p : A -> bool) (l : list A) :
  NoDup (map g l) -> NoDup (map g (filter p l)).
Proof.
  induction l as [|a l IH]; simpl; intros Hnd; [constructor|].
  inversion Hnd as [|? ? Hnot Hnd']; subst.
  destruct (p a); simpl; [|auto].
  constructor; [|auto].
  intros Hin. apply Hnot. apply in_map_iff in Hin.
  destruct Hin as (x & Hx & Hin). apply filter_In in Hin.
  apply in_map_iff. exists x. tauto.
Qed.

(* ===================================================================== *)
(** * The tokenizers *)
(* ===================================================================== *)

(** C1: the two scripts' [tokenize] are meant to be one function.  They
    are not: on the text [die minne] the tokenizer of the lexical-confidence
    script raises [re.error] (its character set holds the range from U+20AC
    down to U+00C3), while the tokenizer of the false-confidence script
    returns the two tokens. *)
Theorem tokenize_scripts_disagree :
  LexicalConfidence.tokenize (lit "die minne")
  = Raise (re_error (bad_character_range 0x20AC 0xC3))
  /\ FalseConfidenceList.tokenize (lit "die minne")
     = Ok [lit "die"; lit "minne"].
Proof. split; reflexivity. Qed.

(** C4: totality of the tokenizers.  The tokenizer of the
    false-confidence script returns a token sequence on every text; the
    tokenizer of the lexical-confidence script raises [re.error] on every
    text, the empty one included, because its pattern does not compile. *)
Theorem tokenize_totality :
  (forall text, exists tokens, FalseConfidenceList.tokenize text = Ok tokens)
  /\ (forall text, LexicalConfidence.tokenize text
                   = Raise (re_error (bad_character_range 0x20AC 0xC3))).
Proof.
  split; intros text.
  - eexists. apply tokenize_false_confidence.
  - reflexivity.
Qed.

(** C5: tokens are to consist of lowercase letters only.  On the text
    [2×3] the tokenizer of the false-confidence script returns the token
    [×]: the multiplication sign U+00D7 lies inside the range
    U+00C0-U+00FF of the pattern and is no letter. *)
Theorem tokenize_keeps_multiplication_sign :
  FalseConfidenceList.tokenize (lit "2×3") = Ok [lit "×"]
  /\ forallb lowercase_alphabetic (lit "×") = false.
Proof. split; reflexivity. Qed.

(* ===================================================================== *)
(** * The confidence score *)
(* ===================================================================== *)






(* ===================================================================== *)
(** * The full report *)
(* ===================================================================== *)

Lemma count_nonneg (m : Counter) (w : str) :
  frequency_model m -> count m w <> 0 -> 1 <= count m w.
Proof.
  intros Hm Hne. apply (frequency_model_values m); [assumption|].
  now apply count_in_values.
Qed.

Lemma report_row_spec (m : Counter) (wf : str * Z) :
  frequency_model m ->
  exists r, LexicalConfidence.report_row m wf = Ok r /\ row_of m wf r.
Proof.
  intros Hm. unfold LexicalConfidence.report_row.
  destruct (score_total m (fst wf) Hm) as (x & -> & H0 & Hpos).
  eexists. split; [reflexivity|]. unfold row_of; simpl.
  repeat split; try reflexivity.
  - intros Hin. apply Z.gtb_lt in Hin. apply Hpos. unfold count. lia.
  - intros Hx. apply Z.gtb_lt.
    destruct (Z.eq_dec (count m (fst wf)) 0) as [He|Hne].
    + rewrite (H0 He) in Hx. lra.
    + pose proof (count_nonneg m (fst wf) Hm Hne). unfold count in *. lia.
Qed.

Lemma report_rows_spec (m target_counts : Counter) :
  frequency_model m ->
  exists rows,
    LexicalConfidence.report_rows m target_counts = Ok rows
    /\ Forall2 (row_of m)
         (sorted key_ltb (fun wf => (- snd wf, fst wf)) (items target_counts))
         rows.
Proof.
  intros Hm. unfold LexicalConfidence.report_rows.
  apply mapM_total. intros wf _. now apply report_row_spec.
Qed.

Lemma Forall2_Forall_r {A B : Type} (P : A -> B -> Prop) (Q : B -> Prop)
    (l : list A) (l' : list B) :
  (forall a b, P a b -> Q b) -> Forall2 P l l' -> Forall Q l'.
Proof. intros HPQ; induction 1; constructor; eauto. Qed.

Lemma Forall2_In_r {A B : Type} (P : A -> B -> Prop)
    (l : list A) (l' : list B) (b : B) :
  Forall2 P l l' -> In b l' -> exists a, In a l /\ P a b.
Proof.
  induction 1 as [|a b' l l' Hab _ IH]; simpl; [contradiction|].
  intros [<-|Hin]; [eauto|]. destruct (IH Hin) as (a' & ? & ?); eauto.
Qed.

Lemma Forall2_In_l {A B : Type} (P : A -> B -> Prop)
    (l : list A) (l' : list B) (a : A) :
  Forall2 P l l' -> In a l -> exists b, In b l' /\ P a b.
Proof.
  induction 1 as [|a' b l l' Hab _ IH]; simpl; [contradiction|].
  intros [<-|Hin]; [eauto|]. destruct (IH Hin) as (b' & ? & ?); eauto.
Qed.

Lemma Forall2_map_eq {A B C : Type} (P : A -> B -> Prop)
    (f : A -> C) (g : B -> C) (l : list A) (l' : list B) :
  (forall a b, P a b -> g b = f a) -> Forall2 P l l' -> map g l' = map f l.
Proof.
  intros HP; induction 1 as [|a b l l' Hab _ IH]; simpl;
    [reflexivity | now rewrite (HP _ _ Hab), IH].
Qed.

Lemma NoDup_map_finer {A B C : Type} (f : A -> B) (h : A -> C) (l : list A) :
  (forall a b, h a = h b -> f a = f b) -> NoDup (map f l) -> NoDup (map h l).
Proof.
  intros Hfh. induction l as [|a l IH]; simpl; intros Hnd; [constructor|].
  inversion Hnd as [|? ? Hnot Hnd']; subst. constructor; [|auto].
  intros Hin. apply Hnot. apply in_map_iff in Hin.
  destruct Hin as (b & Hb & Hin). apply in_map_iff. exists b.
  split; [apply Hfh; assumption | assumption].
Qed.

(** C10: on a frequency model every row of the full report has
    [in_reference] true exactly when its lexical confidence, before it is
    formatted, is above 0. *)
Theorem in_reference_iff_positive_confidence (ref_counts target_counts : Counter) :
  frequency_model ref_counts ->
  exists rows,
    LexicalConfidence.report_rows ref_counts target_counts = Ok rows
    /\ Forall (fun r => LexicalConfidence.in_reference r = true
                        <-> (0 < LexicalConfidence.lexical_confidence r)%R)
              rows.
Proof.
  intros Hm. destruct (report_rows_spec ref_counts target_counts Hm)
    as (rows & Hrows & Hall).
  exists rows. split; [assumption|].
  eapply Forall2_Forall_r; [|exact Hall].
  intros wf r Hr. apply Hr.
Qed.

(** X17: step 3 of [build_report], on a frequency model and the Counter
    of any sequence of target tokens, returns one row for each distinct
    token, with its number of occurrences, and the rows descend in
    target frequency, rows of equal frequency ascending in the
    lexicographic order of the word. *)
Theorem full_report_sorted (ref_counts : Counter) (target_tokens : list str) :
  frequency_model ref_counts ->
  exists rows,
    LexicalConfidence.report_rows ref_counts (update [] target_tokens)
    = Ok rows
    /\ StronglySorted full_report_order rows
    /\ NoDup (map LexicalConfidence.word rows)
    /\ (forall w f,
          (exists r, In r rows /\ LexicalConfidence.word r = w
                     /\ LexicalConfidence.frequency_in_target r = f)
          <-> In w target_tokens /\ f = occ w target_tokens).
Proof.
  intros Hm.
  destruct (report_rows_spec ref_counts (update [] target_tokens) Hm)
    as (rows & Hrows & Hall).
  exists rows. split; [assumption|].
  set (key := fun wf : str * Z => (- snd wf, fst wf)) in *.
  set (its := items (update [] target_tokens)) in *.
  assert (Hkeys : NoDup (map fst its))
    by (apply distinct_keys_update; constructor).
  assert (Hperm : Permutation (sorted key_ltb key its) its)
    by apply sorted_perm.
  split; [|split].
  - eapply StronglySorted_Forall2; [|exact Hall|].
    2:{ apply sorted_strict.
        apply (NoDup_map_finer fst); [|assumption].
        unfold key. intros a b [= _ H]. exact H. }
    intros a b ra rb (Hwa & Hfa & _) (Hwb & Hfb & _) Hlt.
    unfold full_report_order. rewrite Hwa, Hwb, Hfa, Hfb.
    unfold key_lt, key in Hlt; simpl in Hlt.
    destruct Hlt as [Hlt|[He Hlt]]; [left; lia | right; split; [lia|assumption]].
  - assert (Hmap : map LexicalConfidence.word rows
                   = map fst (sorted key_ltb key its)).
    { eapply Forall2_map_eq; [|exact Hall]. intros a r Hr. apply Hr. }
    rewrite Hmap. eapply Permutation_NoDup; [|exact Hkeys].
    apply Permutation_map, Permutation_sym, Hperm.
  - intros w f. rewrite <- items_of_tokens. fold its. split.
    + intros (r & Hin & Hw & Hf).
      destruct (Forall2_In_r _ _ _ _ Hall Hin) as ([w' f'] & Hin' & Hw' & Hf' & _).
      simpl in *. apply (Permutation_in _ Hperm) in Hin'. congruence.
    + intros Hin. apply (Permutation_in _ (Permutation_sym Hperm)) in Hin.
      destruct (Forall2_In_l _ _ _ _ Hall Hin) as (r & Hr & Hw & Hf & _).
      exists r. auto.
Qed.

Lemma in_reference_iff_positive_confidence_witness :
  exists rows,
    LexicalConfidence.report_rows die_die_minne
      (update [] [lit "die"; lit "minne"; lit "vrede"]) = Ok rows
    /\ Forall (fun r => LexicalConfidence.in_reference r = true
                        <-> (0 < LexicalConfidence.lexical_confidence r)%R)
              rows.
Proof.
  apply (in_reference_iff_positive_confidence die_die_minne).
  repeat constructor; simpl; lia.
Defined.

Lemma full_report_sorted_witness :
  exists rows,
    LexicalConfidence.report_rows die_die_minne
      (update [] [lit "minne"; lit "die"; lit "vrede"; lit "minne"])
    = Ok rows
    /\ StronglySorted full_report_order rows
    /\ NoDup (map LexicalConfidence.word rows)
    /\ (forall w f,
          (exists r, In r rows /\ LexicalConfidence.word r = w
                     /\ LexicalConfidence.frequency_in_target r = f)
          <-> In w [lit "minne"; lit "die"; lit "vrede"; lit "minne"]
              /\ f = occ w [lit "minne"; lit "die"; lit "vrede"; lit "minne"]).
Proof.
  apply (full_report_sorted die_die_minne
           [lit "minne"; lit "die"; lit "vrede"; lit "minne"]).
  repeat constructor; simpl; lia.
Defined.

Lemma lexical_confidence_build_reference_counts_loop
    (files : list LexicalConfidence.ref_file) (counts : Counter) :
  LexicalConfidence.build_reference_counts_loop files counts
  = if forallb unreadable files
    then Ok counts
    else Raise (re_error (bad_character_range 0x20AC 0xC3)).
Proof.
  induction files as [|[text|] files IH]; simpl; auto.
Qed.

(** X8: in the script as it is, no report is ever assembled: the
    tokenizer raises on the first reference file that can be read, and
    on the target text at the latest. *)
Lemma lexical_confidence_build_report_raises
    (files : list LexicalConfidence.ref_file) (target_text : str) :
  LexicalConfidence.build_report files target_text
  = Raise (re_error (bad_character_range 0x20AC 0xC3)).
Proof.
  unfold LexicalConfidence.build_report, LexicalConfidence.build_reference_counts.
  rewrite lexical_confidence_build_reference_counts_loop.
  destruct (forallb unreadable files); reflexivity.
Qed.

(** C6: the full report is to list its rows by descending frequency.
    With the reference file [die die minne] and the target text
    [die minne vrede], and also with no reference file at all,
    [build_report] raises the [re.error] of its tokenizer before it
    reaches the sort: there are no rows. *)
Theorem build_report_raises_before_sorting :
  LexicalConfidence.build_report [Some (lit "die die minne")]
    (lit "die minne vrede")
  = Raise (re_error (bad_character_range 0x20AC 0xC3))
  /\ LexicalConfidence.build_report [] (lit "die minne vrede")
     = Raise (re_error (bad_character_range 0x20AC 0xC3)).
Proof. split; reflexivity. Qed.

(* ===================================================================== *)
(** * The false-confidence list *)
(* ===================================================================== *)

Lemma in_roman_set (c : N) : in_set roman_set c = true <-> roman_letter c.
Proof.
  unfold in_set, roman_set, roman_letter. rewrite existsb_exists.
  change (lit "ivxlcdmIVXLCDM") with (lit "ivxlcdm" ++ lit "IVXLCDM").
  rewrite <- in_app_iff. split.
  - intros (i & Hi & Hc). apply in_map_iff in Hi. destruct Hi as (l & <- & Hl).
    simpl in Hc. apply N.eqb_eq in Hc. now subst.
  - intros Hc. exists (LITERAL c). split; [now apply in_map | apply N.eqb_refl].
Qed.

Lemma all_roman (w : str) :
  forallb (in_set roman_set) w = true <-> Forall roman_letter w.
Proof.
  rewrite forallb_forall, Forall_forall.
  split; intros H c Hc; apply in_roman_set, H, Hc.
Qed.

Lemma is_roman_numeral_spec (w : str) :
  FalseConfidenceList.is_roman_numeral w
  = Ok (negb (is_nil w) && forallb (in_set roman_set) w).
Proof. reflexivity. Qed.

Lemma select_row_spec (m : Counter) (wf : str * Z) :
  FalseConfidenceList.select_row m wf
  = Ok (if kept m wf then Some (row_for wf) else None).
Proof.
  unfold FalseConfidenceList.select_row, kept.
  destruct (get m (fst wf) 0 >? 0); [reflexivity|].
  rewrite is_roman_numeral_spec. cbn [bind negb andb].
  destruct (negb (is_nil (fst wf)) && forallb (in_set roman_set) (fst wf));
    reflexivity.
Qed.

Lemma select_rows_spec (m target_counts : Counter) :
  FalseConfidenceList.select_rows m target_counts
  = Ok (map row_for (filter (kept m) target_counts)).
Proof.
  unfold FalseConfidenceList.select_rows, items.
  assert (H : mapM (FalseConfidenceList.select_row m) target_counts
              = Ok (map (fun wf => if kept m wf then Some (row_for wf) else None)
                        target_counts)).
  { induction target_counts as [|wf l IH]; simpl; [reflexivity|].
    rewrite select_row_spec, IH. reflexivity. }
  rewrite H. cbn [bind]. f_equal. clear H.
  induction target_counts as [|wf l IH]; simpl; [reflexivity|].
  destruct (kept m wf); simpl; now rewrite IH.
Qed.

Lemma kept_iff (m : Counter) (w : str) (f : Z) :
  frequency_model m -> w <> [] ->
  kept m (w, f) = true <-> count m w = 0 /\ ~ Forall roman_letter w.
Proof.
  intros Hm Hw. unfold kept; cbn [fst]. fold (count m w).
  assert (Hnil : is_nil w = false) by (destruct w; [congruence | reflexivity]).
  rewrite Hnil; cbn [negb]. rewrite andb_true_l, andb_true_iff, !negb_true_iff.
  rewrite <- all_roman, not_true_iff_false.
  assert (Hc : (count m w >? 0) = false <-> count m w = 0); [|tauto].
  destruct (Z.gtb_spec (count m w) 0) as [Hpos|Hle].
  - split; [discriminate | lia].
  - split; [|reflexivity]. intros _.
    destruct (Z.eq_dec (count m w) 0) as [|Hne]; [assumption|].
    pose proof (count_nonneg m w Hm Hne). lia.
Qed.

(** The character-class test is permissive: no numeral grammar. *)
Example is_roman_numeral_permissive :
  FalseConfidenceList.is_roman_numeral (lit "iiii") = Ok true
  /\ FalseConfidenceList.is_roman_numeral (lit "xvxv") = Ok true
  /\ FalseConfidenceList.is_roman_numeral (lit "XVI") = Ok true
  /\ FalseConfidenceList.is_roman_numeral (lit "vrede") = Ok false
  /\ FalseConfidenceList.is_roman_numeral [] = Ok false.
Proof. repeat split; reflexivity. Qed.

(** C3: on a frequency model, the loop of step 3 appends a row for a
    token exactly when the token's count in the model is 0 and the token
    is not made of the letters i, v, x, l, c, d, m (in either case)
    alone; it never raises. *)
Theorem false_confidence_selection (m : Counter) (w : str) (f : Z) :
  frequency_model m -> w <> [] ->
  exists picked,
    FalseConfidenceList.select_row m (w, f) = Ok picked
    /\ (count m w = 0 /\ ~ Forall roman_letter w ->
        picked = Some {| FalseConfidenceList.word := w;
                         FalseConfidenceList.frequency_in_target := f |})
    /\ (~ (count m w = 0 /\ ~ Forall roman_letter w) -> picked = None).
Proof.
  intros Hm Hw. rewrite select_row_spec. eexists. split; [reflexivity|].
  pose proof (kept_iff m w f Hm Hw) as Hk.
  destruct (kept m (w, f)); split; intros H; try reflexivity.
  - exfalso. apply H, Hk. reflexivity.
  - apply Hk in H. discriminate.
Qed.

Lemma false_confidence_selection_witness :
  exists picked,
    FalseConfidenceList.select_row [(lit "bar", 1)] (lit "xvxv", 1) = Ok picked
    /\ (count [(lit "bar", 1)] (lit "xvxv") = 0
        /\ ~ Forall roman_letter (lit "xvxv") ->
        picked = Some {| FalseConfidenceList.word := lit "xvxv";
                         FalseConfidenceList.frequency_in_target := 1 |})
    /\ (~ (count [(lit "bar", 1)] (lit "xvxv") = 0
           /\ ~ Forall roman_letter (lit "xvxv")) -> picked = None).
Proof.
  apply (false_confidence_selection [(lit "bar", 1)] (lit "xvxv") 1).
  - repeat constructor; simpl; lia.
  - discriminate.
Defined.

Lemma false_confidence_build_loop
    (files : list FalseConfidenceList.ref_file) (counts : Counter) :
  FalseConfidenceList.build_reference_counts_loop files counts
  = Ok (update counts (flat_map file_tokens files)).
Proof.
  revert counts; induction files as [|[text|] files IH]; intros counts.
  - reflexivity.
  - cbn [FalseConfidenceList.build_reference_counts_loop flat_map file_tokens].
    rewrite tokenize_false_confidence. cbn [bind]. rewrite IH.
    unfold update. now rewrite fold_left_app.
  - apply IH.
Qed.

Lemma false_confidence_build (files : list FalseConfidenceList.ref_file) :
  FalseConfidenceList.build_reference_counts files
  = Ok (update [] (flat_map file_tokens files)).
Proof. apply false_confidence_build_loop. Qed.

(** The models the builder returns are frequency models. *)
Lemma false_confidence_build_frequency_model
    (files : list FalseConfidenceList.ref_file) (m : Counter) :
  FalseConfidenceList.build_reference_counts files = Ok m ->
  frequency_model m /\ distinct_keys m.
Proof.
  rewrite false_confidence_build. intros [= <-]. split.
  - apply frequency_model_update. constructor.
  - apply distinct_keys_update. constructor.
Qed.

Lemma false_confidence_list_spec
    (files : list FalseConfidenceList.ref_file) (target_text : str) :
  FalseConfidenceList.build_false_confidence_list files target_text
  = Ok (sorted key_ltb
          (fun r => (FalseConfidenceList.frequency_in_target r,
                     FalseConfidenceList.word r))
          (map row_for
             (filter (kept (update [] (flat_map file_tokens files)))
                     (update [] (map lower (scan letters target_text [])))))).
Proof.
  unfold FalseConfidenceList.build_false_confidence_list.
  rewrite false_confidence_build, tokenize_false_confidence. cbn [bind].
  rewrite select_rows_spec. reflexivity.
Qed.

(** Reference corpus [bar], target [foo foo bar xvi]: the one row is
    [foo, 2]. *)
Example false_confidence_list_foo :
  FalseConfidenceList.build_false_confidence_list
    [Some (lit "bar")] (lit "foo foo bar xvi")
  = Ok [{| FalseConfidenceList.word := lit "foo";
           FalseConfidenceList.frequency_in_target := 2 |}].
Proof. reflexivity. Qed.

(** X4: the rows of the list, end to end: the distinct tokens of the
    target, each with its number of occurrences there, that do not occur
    in the reference files and are not made of Roman-numeral letters
    alone. *)
Lemma false_confidence_list_rows
    (files : list FalseConfidenceList.ref_file) (target_text : str) :
  exists rows,
    FalseConfidenceList.build_false_confidence_list files target_text = Ok rows
    /\ forall w f,
         In {| FalseConfidenceList.word := w;
               FalseConfidenceList.frequency_in_target := f |} rows
         <-> In w (file_tokens (Some target_text))
             /\ f = occ w (file_tokens (Some target_text))
             /\ occ w (flat_map file_tokens files) = 0
             /\ ~ Forall roman_letter w.
Proof.
  rewrite false_confidence_list_spec. eexists. split; [reflexivity|].
  intros w f. cbn [file_tokens]. rewrite tokenize_false_confidence.
  set (tokens := map lower (scan letters target_text [])).
  set (m := update [] (flat_map file_tokens files)).
  set (key := fun r => (FalseConfidenceList.frequency_in_target r,
                        FalseConfidenceList.word r)).
  assert (Hm : frequency_model m) by (apply frequency_model_update; constructor).
  assert (Hcount : count m w = occ w (flat_map file_tokens files))
    by (unfold m; rewrite count_update; reflexivity).
  assert (Hrows : forall l,
            In {| FalseConfidenceList.word := w;
                  FalseConfidenceList.frequency_in_target := f |}
               (sorted key_ltb key (map row_for l))
            <-> In (w, f) l).
  { intros l. split.
    - intros Hin. apply (Permutation_in _ (sorted_perm key _)) in Hin.
      apply in_map_iff in Hin. destruct Hin as ([w' f'] & [= -> ->] & Hin).
      exact Hin.
    - intros Hin. apply (Permutation_in _ (Permutation_sym (sorted_perm key _))).
      apply in_map_iff. exists (w, f). split; [reflexivity | assumption]. }
  rewrite Hrows, filter_In.
  change (In (w, f) (update [] tokens)) with (In (w, f) (items (update [] tokens))).
  rewrite items_of_tokens. split.
  - intros [[Hin Hf] Hk].
    assert (Hw : w <> []).
    { pose proof (false_confidence_tokens_shape target_text tokens
                    (tokenize_false_confidence target_text)) as Hs.
      rewrite Forall_forall in Hs. apply (Hs w Hin). }
    apply (kept_iff m w f Hm Hw) in Hk. rewrite Hcount in Hk. tauto.
  - intros (Hin & Hf & H0 & Hr).
    assert (Hw : w <> []).
    { pose proof (false_confidence_tokens_shape target_text tokens
                    (tokenize_false_confidence target_text)) as Hs.
      rewrite Forall_forall in Hs. apply (Hs w Hin). }
    split; [tauto|]. apply (kept_iff m w f Hm Hw). rewrite Hcount. tauto.
Qed.

(** C7: the false-confidence script returns its rows on every corpus and
    target text; the rows are the selected ones (the distinct tokens of
    the target, each with its number of occurrences, that occur in no
    readable reference file and are not made of Roman-numeral letters
    alone), and they ascend in target frequency, rows of equal frequency
    ascending in the lexicographic order of the word. *)
Theorem false_confidence_list_sorted
    (files : list FalseConfidenceList.ref_file) (target_text : str) :
  exists rows,
    FalseConfidenceList.build_false_confidence_list files target_text = Ok rows
    /\ StronglySorted false_confidence_order rows
    /\ forall w f,
         In {| FalseConfidenceList.word := w;
               FalseConfidenceList.frequency_in_target := f |} rows
         <-> In w (file_tokens (Some target_text))
             /\ f = occ w (file_tokens (Some target_text))
             /\ occ w (flat_map file_tokens files) = 0
             /\ ~ Forall roman_letter w.
Proof.
  rewrite false_confidence_list_spec. eexists. split; [reflexivity|].
  set (key := fun r => (FalseConfidenceList.frequency_in_target r,
                        FalseConfidenceList.word r)).
  split.
  - apply (sorted_strict key).
    apply (NoDup_map_finer FalseConfidenceList.word).
    + intros a b [= _ H]. exact H.
    + rewrite map_map. cbn [row_for FalseConfidenceList.word].
      apply NoDup_map_filter. apply distinct_keys_update. constructor.
  - intros w f. cbn [file_tokens]. rewrite tokenize_false_confidence.
    set (tokens := map lower (scan letters target_text [])).
    set (m := update [] (flat_map file_tokens files)).
    assert (Hm : frequency_model m)
      by (apply frequency_model_update; constructor).
    assert (Hcount : count m w = occ w (flat_map file_tokens files))
      by (unfold m; rewrite count_update; reflexivity).
    assert (Hshape : In w tokens -> w <> []).
    { intros Hin.
      pose proof (false_confidence_tokens_shape target_text tokens
                    (tokenize_false_confidence target_text)) as Hs.
      rewrite Forall_forall in Hs. apply (Hs w Hin). }
    assert (Hrows :
              In {| FalseConfidenceList.word := w;
                    FalseConfidenceList.frequency_in_target := f |}
                 (sorted key_ltb key
                    (map row_for (filter (kept m) (update [] tokens))))
              <-> In (w, f) (filter (kept m) (update [] tokens))).
    { split.
      - intros Hin. apply (Permutation_in _ (sorted_perm key _)) in Hin.
        apply in_map_iff in Hin. destruct Hin as ([w' f'] & [= -> ->] & Hin).
        exact Hin.
      - intros Hin.
        apply (Permutation_in _ (Permutation_sym (sorted_perm key _))).
        apply in_map_iff. exists (w, f). split; [reflexivity | assumption]. }
    rewrite Hrows, filter_In.
    change (In (w, f) (update [] tokens))
      with (In (w, f) (items (update [] tokens))).
    rewrite items_of_tokens. split.
    + intros [[Hin Hf] Hk].
      apply (kept_iff m w f Hm (Hshape Hin)) in Hk. rewrite Hcount in Hk. tauto.
    + intros (Hin & Hf & H0 & Hr).
      split; [tauto|]. apply (kept_iff m w f Hm (Hshape Hin)).
      rewrite Hcount. tauto.
Qed.

(* ===================================================================== *)
(** * The frequency model of a corpus *)
(* ===================================================================== *)

Lemma occ_app (t : str) (l1 l2 : list str) :
  occ t (l1 ++ l2) = occ t l1 + occ t l2.
Proof. unfold occ. rewrite count_occ_app. lia. Qed.

Lemma occ_perm (t : str) (l1 l2 : list str) :
  Permutation l1 l2 -> occ t l1 = occ t l2.
Proof.
  intros Hp. unfold occ. f_equal.
  now apply (proj1 (Permutation_count_occ str_eq_dec l1 l2)).
Qed.

Lemma tokens_in_files_length (files : list FalseConfidenceList.ref_file) :
  tokens_in_files files = Z.of_nat (List.length (flat_map file_tokens files)).
Proof.
  unfold tokens_in_files. induction files as [|f files IH]; simpl; [reflexivity|].
  rewrite IH, length_app. lia.
Qed.

(** X16: the frequency model of the false-confidence script is additive
    over the corpus.  For a corpus split in any way into two parts, the
    count of every token in the model of the whole is the sum of its
    counts in the models of the parts; the counts of the model add up to
    the number of tokens of the files; and the order of the files does
    not change any count. *)
Theorem build_reference_counts_additive
    (files part1 part2 : list FalseConfidenceList.ref_file) :
  Permutation files (part1 ++ part2) ->
  exists m m1 m2,
    FalseConfidenceList.build_reference_counts files = Ok m
    /\ FalseConfidenceList.build_reference_counts part1 = Ok m1
    /\ FalseConfidenceList.build_reference_counts part2 = Ok m2
    /\ (forall t, count m t = count m1 t + count m2 t)
    /\ total m = tokens_in_files files
    /\ (forall files', Permutation files files' ->
        exists m', FalseConfidenceList.build_reference_counts files' = Ok m'
                   /\ forall t, count m' t = count m t).
Proof.
  intros Hp. rewrite !false_confidence_build.
  do 3 eexists. repeat (split; [reflexivity|]). split; [|split].
  - intros t. rewrite !count_update. unfold count; simpl.
    rewrite <- occ_app, <- flat_map_app. apply occ_perm.
    now apply Permutation_flat_map.
  - rewrite total_update, tokens_in_files_length. reflexivity.
  - intros files' Hp'. rewrite false_confidence_build.
    eexists. split; [reflexivity|]. intros t. rewrite !count_update.
    f_equal. apply occ_perm, Permutation_flat_map, Permutation_sym, Hp'.
Qed.

Lemma build_reference_counts_additive_witness :
  exists m m1 m2,
    FalseConfidenceList.build_reference_counts
      [Some (lit "die die minne"); None; Some (lit "Vrede, die")] = Ok m
    /\ FalseConfidenceList.build_reference_counts
         [Some (lit "Vrede, die"); None] = Ok m1
    /\ FalseConfidenceList.build_reference_counts
         [Some (lit "die die minne")] = Ok m2
    /\ (forall t, count m t = count m1 t + count m2 t)
    /\ total m
       = tokens_in_files
           [Some (lit "die die minne"); None; Some (lit "Vrede, die")]
    /\ (forall files',
          Permutation
            [Some (lit "die die minne"); None; Some (lit "Vrede, die")] files' ->
          exists m', FalseConfidenceList.build_reference_counts files' = Ok m'
                     /\ forall t, count m' t = count m t).
Proof.
  apply (build_reference_counts_additive
           [Some (lit "die die minne"); None; Some (lit "Vrede, die")]
           [Some (lit "Vrede, die"); None]
           [Some (lit "die die minne")]).
  simpl. eapply perm_trans; [apply perm_swap|]. eapply perm_trans.
  - apply perm_skip, perm_swap.
  - apply perm_swap.
Defined.

(** C9: the builders of the two scripts are one loop over two
    tokenizers.  On the corpus with the one file [die die minne] the
    builder of the false-confidence script returns the model with
    die: 2 and minne: 1, while the builder of the lexical-confidence
    script raises the [re.error] of its tokenizer and builds no model. *)
Theorem build_reference_counts_scripts_disagree :
  LexicalConfidence.build_reference_counts [Some (lit "die die minne")]
  = Raise (re_error (bad_character_range 0x20AC 0xC3))
  /\ FalseConfidenceList.build_reference_counts [Some (lit "die die minne")]
     = Ok [(lit "die", 2); (lit "minne", 1)].
Proof. split; reflexivity. Qed.

(* ===================================================================== *)
(** * More on the tokenizer of the false-confidence script *)
(* ===================================================================== *)

Lemma flush_app (run : str) (ms : list str) : flush run [] ++ ms = flush run ms.
Proof. destruct run; reflexivity. Qed.

Lemma scan_concat (set : list set_item) (text run : str) :
  List.concat (scan set text run) = run ++ filter (in_set set) text.
Proof.
  revert run; induction text as [|c text IH]; intros run; simpl.
  - destruct run; simpl; now rewrite ?app_nil_r.
  - destruct (in_set set c).
    + rewrite IH, <- app_assoc. reflexivity.
    + rewrite <- flush_app, concat_app, IH.
      destruct run; simpl; now rewrite ?app_nil_r.
Qed.

Lemma scan_separator (set : list set_item) (a b run : str) (sep : N) :
  in_set set sep = false ->
  scan set (a ++ sep :: b) run = scan set a run ++ scan set b [].
Proof.
  intros Hsep. revert run; induction a as [|c a IH]; intros run; simpl.
  - rewrite Hsep. now rewrite flush_app.
  - destruct (in_set set c); [apply IH|].
    rewrite IH, <- (flush_app run (scan set a [] ++ _)), app_assoc.
    now rewrite flush_app.
Qed.

Lemma scan_run (set : list set_item) (more rest run : str) :
  Forall (fun c => in_set set c = true) more ->
  scan set (more ++ rest) run = scan set rest (run ++ more).
Proof.
  intros Hmore; revert run; induction Hmore as [|c more Hc _ IH]; intros run.
  - now rewrite app_nil_r.
  - simpl. rewrite Hc, IH, <- app_assoc. reflexivity.
Qed.

(** Runs of the set, joined by a character outside it, scan back into
    themselves. *)
Lemma scan_join (set : list set_item) (sep : N) (ms : list str) :
  in_set set sep = false ->
  Forall (fun m => m <> [] /\ Forall (fun c => in_set set c = true) m) ms ->
  scan set (PyStr.join [sep] ms) [] = ms.
Proof.
  intros Hsep. induction 1 as [|m ms [Hne Hm] Hms IH]; [reflexivity|].
  cbn [PyStr.join]. destruct ms as [|m' ms'].
  - rewrite <- (app_nil_r m) at 1. rewrite (scan_run set m [] [] Hm). simpl.
    destruct m; [congruence | reflexivity].
  - rewrite (scan_run set m _ [] Hm). cbn [app scan]. rewrite Hsep, IH.
    destruct m; [congruence | reflexivity].
Qed.

(** A property of all code points below U+0100, decided by running
    through them. *)
Lemma latin1_all (P : N -> bool) (c : N) :
  forallb P (map N.of_nat (seq 0 256)) = true -> (c <= 0xFF)%N -> P c = true.
Proof.
  intros Hall Hc. rewrite forallb_forall in Hall. apply Hall.
  apply in_map_iff. exists (N.to_nat c). split; [lia|]. apply in_seq. lia.
Qed.

Lemma lower_char_stays_letter (c : N) :
  in_set letters c = true ->
  in_set letters (lower_char c) = true
  /\ lower_char (lower_char c) = lower_char c.
Proof.
  intros Hc. assert (Hle : (c <= 0xFF)%N) by (apply in_letters in Hc; lia).
  pose proof (latin1_all
    (fun c => negb (in_set letters c)
              || (in_set letters (lower_char c)
                  && (lower_char (lower_char c) =? lower_char c)%N))
    c ltac:(vm_compute; reflexivity) Hle) as H.
  cbv beta in H. rewrite Hc in H. cbn [negb orb] in H.
  apply andb_true_iff in H. destruct H as [H1 H2].
  apply N.eqb_eq in H2. auto.
Qed.

Lemma lowered_runs (ms : list str) :
  Forall (fun m => m <> [] /\ Forall (fun c => in_set letters c = true) m) ms ->
  Forall (fun m => m <> [] /\ Forall (fun c => in_set letters c = true) m)
         (map lower ms)
  /\ map lower (map lower ms) = map lower ms.
Proof.
  induction 1 as [|m ms [Hne Hm] _ [IH1 IH2]]; simpl; [split; constructor|].
  assert (Hl : Forall (fun c => in_set letters c = true) (lower m)
               /\ lower (lower m) = lower m).
  { clear Hne. unfold lower. induction Hm as [|c m Hc _ [IHa IHb]]; simpl;
      [split; constructor|].
    destruct (lower_char_stays_letter c Hc) as [H1 H2].
    split; [constructor; assumption | now rewrite H2, IHb]. }
  destruct Hl as [Hl1 Hl2]. split.
  - constructor; [|assumption]. split; [|assumption].
    destruct m; [congruence | discriminate].
  - now rewrite Hl2, IH2.
Qed.

Lemma concat_lower (ms : list str) :
  List.concat (map lower ms) = lower (List.concat ms).
Proof.
  induction ms as [|m ms IH]; simpl; [reflexivity|].
  rewrite IH. unfold lower. now rewrite map_app.
Qed.

(** X1: the tokens of a text, put end to end, are the letters of the
    text (the characters of the pattern's set) in their order, lowered:
    tokenizing drops every other character and nothing else. *)
Theorem tokenize_keeps_the_letters (text : str) :
  exists tokens,
    FalseConfidenceList.tokenize text = Ok tokens
    /\ List.concat tokens = lower (filter (in_set letters) text).
Proof.
  rewrite tokenize_false_confidence. eexists. split; [reflexivity|].
  rewrite concat_lower, scan_concat. reflexivity.
Qed.

(** X2: tokenizing is idempotent: the tokens of a text, joined by single
    spaces and tokenized again, come back unchanged. *)
Theorem tokenize_idempotent (text : str) :
  exists tokens,
    FalseConfidenceList.tokenize text = Ok tokens
    /\ FalseConfidenceList.tokenize (PyStr.join (lit " ") tokens) = Ok tokens.
Proof.
  rewrite tokenize_false_confidence. eexists. split; [reflexivity|].
  rewrite tokenize_false_confidence.
  pose proof (scan_matches letters text [] (Forall_nil _)) as Hs.
  destruct (lowered_runs _ Hs) as [Hl Hid].
  change (lit " ") with [0x20%N].
  rewrite (scan_join letters 0x20 _ eq_refl Hl), Hid. reflexivity.
Qed.

(** X3: a character outside the pattern's set separates: the tokens of
    two texts with such a character between them are the tokens of the
    first followed by the tokens of the second. *)
Theorem tokenize_across_separator (a b : str) (sep : N) :
  in_set letters sep = false ->
  exists ta tb,
    FalseConfidenceList.tokenize a = Ok ta
    /\ FalseConfidenceList.tokenize b = Ok tb
    /\ FalseConfidenceList.tokenize (a ++ sep :: b) = Ok (ta ++ tb).
Proof.
  intros Hsep. rewrite !tokenize_false_confidence.
  do 2 eexists. repeat (split; [reflexivity|]).
  rewrite (scan_separator letters a b [] sep Hsep), map_app. reflexivity.
Qed.

Lemma tokenize_across_separator_witness :
  exists ta tb,
    FalseConfidenceList.tokenize (lit "die die") = Ok ta
    /\ FalseConfidenceList.tokenize (lit "minne") = Ok tb
    /\ FalseConfidenceList.tokenize (lit "die die" ++ 0x0A%N :: lit "minne")
       = Ok (ta ++ tb).
Proof.
  apply (tokenize_across_separator (lit "die die") (lit "minne") 0x0A).
  reflexivity.
Defined.

(* ===================================================================== *)
(** * More on the frequency model and the false-confidence list *)
(* ===================================================================== *)

(** X5: what the builder of the false-confidence script keeps: it
    returns a model on every corpus; no token is present with a count
    below 1 and none is present twice; the count of a token is the number
    of its occurrences among the tokens of the files that can be read,
    and the tokens present are the tokens of those files. *)
Theorem build_reference_counts_invariants
    (files : list FalseConfidenceList.ref_file) :
  exists m,
    FalseConfidenceList.build_reference_counts files = Ok m
    /\ frequency_model m
    /\ distinct_keys m
    /\ (forall t, count m t = occ t (flat_map file_tokens files))
    /\ (forall t, In t (map fst m)
                  <-> exists f, In f files /\ In t (file_tokens f)).
Proof.
  rewrite false_confidence_build. eexists. split; [reflexivity|].
  split; [apply frequency_model_update; constructor|].
  split; [apply distinct_keys_update; constructor|].
  split.
  - intros t. rewrite count_update. reflexivity.
  - intros t. rewrite keys_update, in_flat_map. simpl. tauto.
Qed.

Lemma in_sorted_rows (rows : list FalseConfidenceList.row)
    (r : FalseConfidenceList.row) :
  In r (sorted key_ltb
          (fun r => (FalseConfidenceList.frequency_in_target r,
                     FalseConfidenceList.word r)) rows)
  <-> In r rows.
Proof.
  split; apply Permutation_in;
    [|apply Permutation_sym]; apply sorted_perm.
Qed.

(** X6: reference files only take rows away: every row of the list
    built with more reference files is a row of the list built with
    fewer. *)
Theorem false_confidence_list_shrinks
    (files more : list FalseConfidenceList.ref_file) (target_text : str) :
  exists rows rows',
    FalseConfidenceList.build_false_confidence_list files target_text = Ok rows
    /\ FalseConfidenceList.build_false_confidence_list (files ++ more)
         target_text = Ok rows'
    /\ incl rows' rows.
Proof.
  rewrite !false_confidence_list_spec. do 2 eexists.
  repeat (split; [reflexivity|]).
  intros r. rewrite !in_sorted_rows, !in_map_iff.
  intros (wf & Hr & Hin). exists wf. split; [assumption|].
  rewrite filter_In in *. destruct Hin as [Hin Hk]. split; [assumption|].
  unfold kept in *. apply andb_true_iff in Hk. destruct Hk as [Hc Hrom].
  apply andb_true_iff. split; [|assumption].
  apply negb_true_iff in Hc. apply negb_true_iff.
  fold (count (update [] (flat_map file_tokens (files ++ more))) (fst wf)) in Hc.
  fold (count (update [] (flat_map file_tokens files)) (fst wf)).
  rewrite count_update in *. rewrite flat_map_app, occ_app in Hc.
  unfold count in *; simpl in *.
  destruct (Z.gtb_spec (occ (fst wf) (flat_map file_tokens files)) 0);
    [|reflexivity].
  destruct (Z.gtb_spec (occ (fst wf) (flat_map file_tokens files)
                        + occ (fst wf) (flat_map file_tokens more)) 0);
    [discriminate|].
  unfold occ in *. lia.
Qed.

(** X7: the false-confidence list is well formed: no word has two rows,
    and every row counts at least one occurrence in the target. *)
Theorem false_confidence_list_well_formed
    (files : list FalseConfidenceList.ref_file) (target_text : str) :
  exists rows,
    FalseConfidenceList.build_false_confidence_list files target_text = Ok rows
    /\ NoDup (map FalseConfidenceList.word rows)
    /\ Forall (fun r => 1 <= FalseConfidenceList.frequency_in_target r) rows.
Proof.
  rewrite false_confidence_list_spec. eexists. split; [reflexivity|].
  set (m := update [] (flat_map file_tokens files)).
  set (its := update [] (map lower (scan letters target_text []))).
  split.
  - eapply Permutation_NoDup.
    + apply Permutation_map, Permutation_sym, sorted_perm.
    + rewrite map_map. cbn [row_for FalseConfidenceList.word].
      apply NoDup_map_filter. apply distinct_keys_update. constructor.
  - apply Forall_forall. intros r Hr. apply (proj1 (in_sorted_rows _ _)) in Hr.
    apply in_map_iff in Hr. destruct Hr as (wf & <- & Hin).
    apply filter_In in Hin. destruct Hin as [Hin _].
    assert (Hfm : frequency_model its)
      by (apply frequency_model_update; constructor).
    unfold frequency_model in Hfm. rewrite Forall_forall in Hfm.
    exact (Hfm wf Hin).
Qed.

(** X9: the builder of the lexical-confidence script returns a model
    only for a corpus in which no file can be read, and then the empty
    one; with a readable file it raises the [re.error] of its
    tokenizer. *)
Theorem lexical_confidence_build_reference_counts
    (files : list LexicalConfidence.ref_file) :
  LexicalConfidence.build_reference_counts files
  = if forallb unreadable files then Ok []
    else Raise (re_error (bad_character_range 0x20AC 0xC3)).
Proof. apply lexical_confidence_build_reference_counts_loop. Qed.

(** X10: on a Counter that holds a negative count for the word,
    [compute_lexical_confidence] returns 0 when no count of the Counter
    is positive and raises [ValueError] (the logarithm of a number that
    is not positive) when one is. *)
Theorem compute_lexical_confidence_negative_count
    (m : Counter) (w : str) (M : Z) :
  count m w < 0 -> max (values m) = Ok M ->
  LexicalConfidence.compute_lexical_confidence m w
  = if M <=? 0 then Ok 0%R else Raise ValueError.
Proof.
  intros Hneg HM. unfold LexicalConfidence.compute_lexical_confidence.
  fold (count m w).
  assert (H0 : (count m w =? 0) = false) by (apply Z.eqb_neq; lia).
  rewrite H0, HM. cbn [bind]. destruct (M <=? 0); [reflexivity|].
  unfold log. assert (H1 : (0 <? 1 + count m w) = false) by (apply Z.ltb_ge; lia).
  rewrite H1. reflexivity.
Qed.

Lemma compute_lexical_confidence_negative_count_witness :
  LexicalConfidence.compute_lexical_confidence
    [(lit "die", 5); (lit "minne", -1)] (lit "minne")
  = if 5 <=? 0 then Ok 0%R else Raise ValueError.
Proof.
  apply (compute_lexical_confidence_negative_count
           [(lit "die", 5); (lit "minne", -1)] (lit "minne") 5).
  - vm_compute. reflexivity.
  - reflexivity.
Defined.

Lemma mapM_Forall2 {A B : Type} (f : A -> result B) (l : list A) (bs : list B) :
  mapM f l = Ok bs -> Forall2 (fun a b => f a = Ok b) l bs.
Proof.
  revert bs; induction l as [|a l IH]; simpl; intros bs H.
  - injection H as <-. constructor.
  - destruct (f a) as [b|] eqn:Hb; [|discriminate]. cbn [bind] in H.
    destruct (mapM f l) as [bs'|]; [|discriminate]. cbn [bind] in H.
    injection H as <-. constructor; auto.
Qed.

Lemma report_row_fields (m : Counter) (wf : str * Z) (r : LexicalConfidence.row) :
  LexicalConfidence.report_row m wf = Ok r ->
  LexicalConfidence.word r = fst wf
  /\ LexicalConfidence.frequency_in_target r = snd wf
  /\ LexicalConfidence.in_reference r = (get m (fst wf) 0 >? 0).
Proof.
  unfold LexicalConfidence.report_row.
  destruct (LexicalConfidence.compute_lexical_confidence m (fst wf));
    [|discriminate].
  cbn [bind]. intros [= <-]. auto.
Qed.

(** X11: the two reports agree.  On one frequency model and one Counter
    of target tokens, the rows the false-confidence script selects are
    the rows of the full report that have [in_reference] false and a
    word that [is_roman_numeral] rejects, with the same frequency. *)
Theorem false_confidence_rows_of_full_report (m target_counts : Counter) :
  frequency_model m ->
  exists full selected,
    LexicalConfidence.report_rows m target_counts = Ok full
    /\ FalseConfidenceList.select_rows m target_counts = Ok selected
    /\ forall w f,
         In {| FalseConfidenceList.word := w;
               FalseConfidenceList.frequency_in_target := f |} selected
         <-> FalseConfidenceList.is_roman_numeral w = Ok false
             /\ exists r, In r full
                  /\ LexicalConfidence.word r = w
                  /\ LexicalConfidence.frequency_in_target r = f
                  /\ LexicalConfidence.in_reference r = false.
Proof.
  intros Hm. destruct (report_rows_spec m target_counts Hm) as (full & Hfull & _).
  exists full. eexists. split; [exact Hfull|].
  split; [apply select_rows_spec|].
  unfold LexicalConfidence.report_rows, items in Hfull.
  apply mapM_Forall2 in Hfull.
  set (key := fun wf : str * Z => (- snd wf, fst wf)) in *.
  assert (Hperm : Permutation (sorted key_ltb key target_counts) target_counts)
    by apply sorted_perm.
  intros w f. rewrite is_roman_numeral_spec. split.
  - intros Hin. apply in_map_iff in Hin. destruct Hin as ([w' f'] & Hr & Hin).
    unfold row_for in Hr; simpl in Hr. injection Hr as -> ->.
    apply filter_In in Hin. destruct Hin as [Hin Hk].
    unfold kept in Hk; cbn [fst] in Hk. apply andb_true_iff in Hk.
    destruct Hk as [Hc Hrom]. apply negb_true_iff in Hc, Hrom.
    split; [now rewrite Hrom|].
    apply (Permutation_in _ (Permutation_sym Hperm)) in Hin.
    destruct (Forall2_In_l _ _ _ _ Hfull Hin) as (r & Hr & Hrow).
    apply report_row_fields in Hrow. destruct Hrow as (Hw & Hf & Href).
    exists r. simpl in *. rewrite Hc in Href. auto.
  - intros [Hrom (r & Hr & Hw & Hf & Href)].
    destruct (Forall2_In_r _ _ _ _ Hfull Hr) as ([w' f'] & Hin & Hrow).
    apply report_row_fields in Hrow. destruct Hrow as (Hw' & Hf' & Href').
    simpl in *. subst w f. rewrite Hw', Hf'.
    apply (Permutation_in _ Hperm) in Hin.
    apply in_map_iff. exists (w', f'). split; [reflexivity|].
    apply filter_In. split; [assumption|].
    unfold kept; cbn [fst]. rewrite Hw' in Hrom. injection Hrom as Hrom.
    rewrite Href in Href'. rewrite <- Href', Hrom. reflexivity.
Qed.

Lemma false_confidence_rows_of_full_report_witness :
  exists full selected,
    LexicalConfidence.report_rows die_die_minne
      (update [] [lit "die"; lit "vrede"; lit "xvi"; lit "vrede"]) = Ok full
    /\ FalseConfidenceList.select_rows die_die_minne
         (update [] [lit "die"; lit "vrede"; lit "xvi"; lit "vrede"])
       = Ok selected
    /\ forall w f,
         In {| FalseConfidenceList.word := w;
               FalseConfidenceList.frequency_in_target := f |} selected
         <-> FalseConfidenceList.is_roman_numeral w = Ok false
             /\ exists r, In r full
                  /\ LexicalConfidence.word r = w
                  /\ LexicalConfidence.frequency_in_target r = f
                  /\ LexicalConfidence.in_reference r = false.
Proof.
  apply (false_confidence_rows_of_full_report die_die_minne).
  repeat constructor; simpl; lia.
Defined.

(* ===================================================================== *)
(** * The reference files that are read *)
(* ===================================================================== *)

Lemma rfind_lower_bound (c : N) (s : str) : -1 <= PyStr.rfind c s.
Proof.
  induction s as [|d s IH]; simpl; [lia|].
  destruct (Z.leb_spec 0 (PyStr.rfind c s)); [lia|].
  destruct (d =? c)%N; lia.
Qed.

Lemma rfind_absent (c : N) (s : str) : ~ In c s -> PyStr.rfind c s = -1.
Proof.
  induction s as [|d s IH]; simpl; intros Hnot; [reflexivity|].
  rewrite IH by tauto. simpl.
  destruct (N.eqb_spec d c); [tauto | reflexivity].
Qed.

Lemma rfind_negative (c : N) (s : str) : PyStr.rfind c s < 0 -> ~ In c s.
Proof.
  induction s as [|d s IH]; simpl; intros Hneg; [tauto|].
  destruct (Z.leb_spec 0 (PyStr.rfind c s)) as [Hle|Hlt].
  - pose proof (rfind_lower_bound c s). lia.
  - destruct (N.eqb_spec d c); [lia|]. intros [Hd|Hin]; [congruence|].
    now apply IH.
Qed.

Lemma rfind_last (c : N) (pre post : str) :
  ~ In c post ->
  PyStr.rfind c (pre ++ c :: post) = Z.of_nat (List.length pre).
Proof.
  intros Hnot. induction pre as [|d pre IH].
  - simpl. rewrite (rfind_absent c post Hnot). simpl.
    now rewrite N.eqb_refl.
  - cbn [app PyStr.rfind List.length]. rewrite IH.
    destruct (Z.leb_spec 0 (Z.of_nat (List.length pre))); lia.
Qed.

Lemma rfind_found (c : N) (s : str) :
  0 <= PyStr.rfind c s ->
  exists pre post,
    s = pre ++ c :: post /\ ~ In c post
    /\ PyStr.rfind c s = Z.of_nat (List.length pre).
Proof.
  induction s as [|d s IH]; simpl; [lia|].
  destruct (Z.leb_spec 0 (PyStr.rfind c s)) as [Hle|Hlt]; intros H.
  - destruct (IH Hle) as (pre & post & -> & Hnot & Hi).
    exists (d :: pre), post. repeat split; [assumption|].
    rewrite Hi. cbn [List.length]. lia.
  - destruct (N.eqb_spec d c) as [->|Hne]; [|lia].
    exists [], s. repeat split. now apply rfind_negative.
Qed.

Lemma suffix_of_name (p : ReferenceFiles.path) (stem ext : str) :
  ReferenceFiles.name p = stem ++ 0x2E%N :: ext -> ~ In 0x2E%N ext ->
  ReferenceFiles.suffix p
  = if is_nil stem || is_nil ext then [] else 0x2E%N :: ext.
Proof.
  intros Hname Hnot. unfold ReferenceFiles.suffix.
  rewrite Hname, (rfind_last _ stem ext Hnot), length_app. cbn [List.length].
  rewrite Nat2Z.id, skipn_app, skipn_all, Nat.sub_diag. cbn [app skipn].
  destruct stem as [|c stem], ext as [|d ext]; cbn [is_nil orb List.length];
    try reflexivity.
  - destruct (_ && _) eqn:H; [|reflexivity].
    apply andb_true_iff in H. destruct H as [_ H]. apply Z.ltb_lt in H. lia.
  - assert (H : (0 <? Z.of_nat (S (List.length stem))) = true)
      by (apply Z.ltb_lt; lia).
    rewrite H. cbn [andb].
    assert (H' : (Z.of_nat (S (List.length stem))
                  <? Z.of_nat (S (List.length stem) + S (S (List.length ext))) - 1)
                 = true) by (apply Z.ltb_lt; lia).
    now rewrite H'.
Qed.

Lemma lower_char_spells (c l : N) :
  (0x61 <= l <= 0x7A)%N ->
  lower_char c = l <-> c = l \/ ((0x41 <= c <= 0x5A)%N /\ (c + 32)%N = l).
Proof.
  intros Hl. unfold lower_char.
  destruct (N.leb_spec 0x41 c), (N.leb_spec c 0x5A); cbn [andb];
    try (destruct (N.leb_spec 0xC0 c), (N.leb_spec c 0xDE),
           (N.eqb_spec c 0xD7); cbn [andb negb]); lia.
Qed.

Lemma lower_spells (ext e : str) :
  Forall (fun l => (0x61 <= l <= 0x7A)%N) e ->
  lower ext = e <-> spells_ignoring_case ext e.
Proof.
  intros He. revert ext; induction He as [|l e Hl _ IH]; intros ext.
  - split.
    + destruct ext; [constructor | discriminate].
    + inversion 1. reflexivity.
  - split.
    + destruct ext as [|c ext]; [discriminate|].
      change (lower (c :: ext)) with (lower_char c :: lower ext).
      intros [= Hc Hext].
      constructor; [now apply lower_char_spells | now apply IH].
    + inversion 1 as [|c ? ext' ? Hc Hext]; subst.
      change (lower (c :: ext')) with (lower_char c :: lower ext'). f_equal.
      * now apply lower_char_spells.
      * now apply IH.
Qed.

Lemma extensions_lowercase (e : str) :
  In e extensions -> Forall (fun l => (0x61 <= l <= 0x7A)%N) e.
Proof.
  intros He.
  assert (H : forallb (forallb (fun l => (0x61 <=? l) && (l <=? 0x7A))%N)
                extensions = true) by reflexivity.
  rewrite forallb_forall in H. specialize (H e He).
  rewrite forallb_forall in H. apply Forall_forall. intros l Hin.
  specialize (H l Hin). apply andb_true_iff in H.
  rewrite !N.leb_le in H. exact H.
Qed.

Lemma allowed_exts_extensions (a : str) :
  In a ReferenceFiles.allowed_exts
  <-> exists e, a = 0x2E%N :: e /\ In e extensions.
Proof.
  change ReferenceFiles.allowed_exts with (map (cons 0x2E%N) extensions).
  rewrite in_map_iff. split; intros (e & H1 & H2); exists e; auto.
Qed.

(** X12: which paths [build_reference_counts] reads: the regular files
    whose name is a non-empty stem, a period and one of the extensions
    txt, xml, vrt, csv, tsv with each letter in either case.  A name
    that is only an extension ([.txt]) is not read. *)
Theorem allowed_iff (p : ReferenceFiles.path) :
  ReferenceFiles.allowed p = true
  <-> ReferenceFiles.is_file p = true
      /\ exists stem ext e,
           ReferenceFiles.name p = stem ++ 0x2E%N :: ext
           /\ stem <> []
           /\ In e extensions
           /\ spells_ignoring_case ext e.
Proof.
  unfold ReferenceFiles.allowed. rewrite andb_true_iff, existsb_exists.
  split; intros [Hfile H]; (split; [assumption|]).
  - destruct H as (a & Ha & Heq). apply str_eqb_eq in Heq.
    apply allowed_exts_extensions in Ha. destruct Ha as (e & -> & He).
    assert (Hsuf : ReferenceFiles.suffix p <> [])
      by (intros Hs; rewrite Hs in Heq; discriminate).
    unfold ReferenceFiles.suffix in Hsuf, Heq.
    destruct (_ && _) eqn:Hcond; [|congruence]. clear Hsuf.
    apply andb_true_iff in Hcond. destruct Hcond as [Hpos _].
    apply Z.ltb_lt in Hpos.
    destruct (rfind_found 0x2E (ReferenceFiles.name p) ltac:(lia))
      as (stem & ext & Hname & Hnot & Hi).
    rewrite Hi in Heq, Hpos. rewrite Nat2Z.id in Heq.
    rewrite Hname, skipn_app, skipn_all, Nat.sub_diag in Heq.
    cbn [app skipn] in Heq.
    change (lower (0x2E%N :: ext)) with (0x2E%N :: lower ext) in Heq.
    injection Heq as Heq.
    exists stem, ext, e. repeat split; try assumption.
    + intros ->. simpl in Hpos. lia.
    + apply lower_spells; [now apply extensions_lowercase | exact Heq].
  - destruct H as (stem & ext & e & Hname & Hstem & He & Hsp).
    pose proof (extensions_lowercase e He) as Hlow.
    exists (0x2E%N :: e). split.
    + apply allowed_exts_extensions. eauto.
    + apply str_eqb_eq.
      assert (Hnot : ~ In 0x2E%N ext).
      { clear - Hsp Hlow. induction Hsp as [|c l ext e Hc _ IH]; [tauto|].
        inversion Hlow; subst. intros [Hdot|Hin]; [subst c; lia | now apply IH]. }
      rewrite (suffix_of_name p stem ext Hname Hnot).
      assert (Hext : ext <> []).
      { destruct Hsp; [|discriminate].
        exfalso. revert He. vm_compute. intuition discriminate. }
      destruct stem; [congruence|]. destruct ext as [|d ext]; [congruence|].
      cbn [is_nil orb]. change (lower (0x2E%N :: d :: ext))
        with (0x2E%N :: lower (d :: ext)).
      f_equal. now apply lower_spells.
Qed.

(* ===================================================================== *)
(** * Whitespace: [strip], [split] and the collapsed text *)
(* ===================================================================== *)

Lemma lstrip_decompose (s : str) :
  exists ws, s = ws ++ PyStr.lstrip s
    /\ Forall (fun c => PyStr.is_space c = true) ws
    /\ PyStr.is_space (hd 0%N (PyStr.lstrip s)) = false.
Proof.
  induction s as [|c s (ws & Hs & Hws & Hhd)]; simpl.
  - exists []. repeat split; constructor.
  - destruct (PyStr.is_space c) eqn:Hc.
    + exists (c :: ws). repeat split; [simpl; congruence | now constructor | assumption].
    + exists []. repeat split; [constructor | exact Hc].
Qed.

Lemma last_rev_hd (s : str) (d : N) : last (rev s) d = hd d s.
Proof.
  destruct s as [|c s]; [reflexivity|]. simpl. apply last_last.
Qed.

Lemma rstrip_decompose (s : str) :
  exists ws, s = PyStr.rstrip s ++ ws
    /\ Forall (fun c => PyStr.is_space c = true) ws
    /\ PyStr.is_space (last (PyStr.rstrip s) 0%N) = false.
Proof.
  unfold PyStr.rstrip.
  destruct (lstrip_decompose (rev s)) as (ws & Hs & Hws & Hhd).
  exists (rev ws). repeat split.
  - rewrite <- rev_app_distr, <- Hs. now rewrite rev_involutive.
  - now apply Forall_rev.
  - now rewrite last_rev_hd.
Qed.

Lemma last_app_cons (a : str) (c : N) (b : str) (d : N) :
  last (a ++ c :: b) d = last (c :: b) d.
Proof.
  induction a as [|x a IH]; [reflexivity|].
  cbn [app]. rewrite <- IH. destruct (a ++ c :: b) eqn:H; [|reflexivity].
  destruct a; discriminate.
Qed.

(** [strip] takes whitespace off both ends and leaves a text that
    neither starts nor ends with whitespace. *)
Lemma strip_decompose (s : str) :
  exists ws1 ws2, s = ws1 ++ PyStr.strip s ++ ws2
    /\ Forall (fun c => PyStr.is_space c = true) ws1
    /\ Forall (fun c => PyStr.is_space c = true) ws2
    /\ PyStr.is_space (hd 0%N (PyStr.strip s)) = false
    /\ PyStr.is_space (last (PyStr.strip s) 0%N) = false.
Proof.
  unfold PyStr.strip.
  destruct (rstrip_decompose s) as (ws2 & Hs & Hws2 & Hlast).
  destruct (lstrip_decompose (PyStr.rstrip s)) as (ws1 & Hr & Hws1 & Hhd).
  exists ws1, ws2. repeat split; try assumption.
  - rewrite app_assoc, <- Hr. exact Hs.
  - destruct (PyStr.lstrip (PyStr.rstrip s)) as [|c r] eqn:Hl; [reflexivity|].
    rewrite Hr, last_app_cons in Hlast. exact Hlast.
Qed.

Lemma split_run_spaces (ws : str) (word : str) :
  Forall (fun c => PyStr.is_space c = true) ws ->
  PyStr.split_run ws word = flush word [].
Proof.
  intros Hws; revert word; induction Hws as [|c ws Hc _ IH]; intros word; simpl;
    [reflexivity|].
  rewrite Hc, IH. reflexivity.
Qed.

Lemma split_run_spaces_front (ws t : str) :
  Forall (fun c => PyStr.is_space c = true) ws ->
  PyStr.split_run (ws ++ t) [] = PyStr.split_run t [].
Proof.
  induction 1 as [|c ws Hc _ IH]; simpl; [reflexivity|].
  now rewrite Hc, IH.
Qed.

Lemma split_run_spaces_back (t ws word : str) :
  Forall (fun c => PyStr.is_space c = true) ws ->
  PyStr.split_run (t ++ ws) word = PyStr.split_run t word.
Proof.
  intros Hws. revert word; induction t as [|c t IH]; intros word; simpl.
  - now apply split_run_spaces.
  - destruct (PyStr.is_space c); now rewrite IH.
Qed.

Lemma split_strip (s : str) : PyStr.split (PyStr.strip s) = PyStr.split s.
Proof.
  destruct (strip_decompose s) as (ws1 & ws2 & Hs & Hws1 & Hws2 & _).
  unfold PyStr.split. rewrite Hs at 2.
  now rewrite split_run_spaces_front, split_run_spaces_back.
Qed.

Lemma split_run_sub_whitespace (t word : str) (in_run : bool) :
  (in_run = true -> word = []) ->
  PyStr.split_run (PyStr.sub_whitespace t in_run) word = PyStr.split_run t word.
Proof.
  revert word in_run; induction t as [|c t IH]; intros word in_run Hrun; simpl.
  - reflexivity.
  - destruct (PyStr.is_space c) eqn:Hc.
    + destruct in_run.
      * rewrite (Hrun eq_refl). now rewrite IH.
      * simpl. now rewrite IH.
    + simpl. rewrite Hc. apply IH. discriminate.
Qed.

Lemma spaced_once_sub_whitespace (t : str) (in_run : bool) :
  spaced_once (PyStr.sub_whitespace t in_run) in_run = true.
Proof.
  revert in_run; induction t as [|c t IH]; intros in_run; simpl; [reflexivity|].
  destruct (PyStr.is_space c) eqn:Hc.
  - destruct in_run; [apply IH|]. simpl. apply IH.
  - simpl. rewrite Hc. apply IH.
Qed.

Lemma spaced_once_prefix (a b : str) (f : bool) :
  spaced_once (a ++ b) f = true -> spaced_once a f = true.
Proof.
  revert f; induction a as [|c a IH]; intros f; simpl; [reflexivity|].
  destruct (PyStr.is_space c); [|apply IH].
  rewrite !andb_true_iff. intros [H1 H2]. split; [assumption | now apply IH].
Qed.

Lemma spaced_once_suffix (a b : str) (f : bool) :
  spaced_once (a ++ b) f = true -> PyStr.is_space (hd 0%N b) = false ->
  spaced_once b true = true.
Proof.
  intros H Hhd.
  assert (Hany : exists f', spaced_once b f' = true).
  { revert f H; induction a as [|c a IH]; intros f H; simpl in H; [eauto|].
    destruct (PyStr.is_space c); [|eauto].
    apply andb_true_iff in H. destruct H as [_ H]. eauto. }
  destruct Hany as [f' Hf']. destruct b as [|c b]; [reflexivity|].
  simpl in *. now rewrite Hhd in *.
Qed.

(** A text with single spaces only, and none at either end, is its words
    joined by single spaces. *)
Lemma join_split_run (r word : str) :
  spaced_once r (is_nil word) = true ->
  PyStr.is_space (last r 0%N) = false ->
  PyStr.join [0x20%N] (PyStr.split_run r word) = word ++ r.
Proof.
  revert word; induction r as [|c r IH]; intros word Hsp Hlast.
  - simpl. destruct word; simpl; now rewrite ?app_nil_r.
  - cbn [PyStr.split_run spaced_once] in *.
    destruct (PyStr.is_space c) eqn:Hc.
    + apply andb_true_iff in Hsp. destruct Hsp as [Hsp Hr].
      apply andb_true_iff in Hsp. destruct Hsp as [H20 Hword].
      apply N.eqb_eq in H20. subst c.
      destruct r as [|d r]; [simpl in Hlast; congruence|].
      specialize (IH [] Hr Hlast).
      destruct word as [|x word]; [discriminate|]. cbn [flush].
      destruct (PyStr.split_run (d :: r) []) as [|w ws] eqn:Hsplit;
        [discriminate|].
      cbn [PyStr.join]. cbn [PyStr.join] in IH. rewrite IH. reflexivity.
    + rewrite IH.
      * now rewrite <- app_assoc.
      * destruct word; exact Hsp.
      * destruct r; [reflexivity | exact Hlast].
Qed.

(** The whitespace handling of [extract_body_text] and [" ".join] of
    [split]. *)
Lemma collapse_strip_join (text : str) :
  PyStr.strip (PyStr.sub_whitespace text false)
  = PyStr.join [0x20%N] (PyStr.split text).
Proof.
  set (u := PyStr.sub_whitespace text false).
  destruct (strip_decompose u) as (ws1 & ws2 & Hu & Hws1 & Hws2 & Hhd & Hlast).
  assert (Hsp : spaced_once (PyStr.strip u) true = true).
  { pose proof (spaced_once_sub_whitespace text false) as H. fold u in H.
    rewrite Hu, app_assoc in H. apply spaced_once_prefix in H.
    now apply spaced_once_suffix in H. }
  pose proof (join_split_run (PyStr.strip u) [] Hsp Hlast) as Hj.
  simpl in Hj. rewrite <- Hj. f_equal.
  fold (PyStr.split (PyStr.strip u)). rewrite split_strip.
  unfold PyStr.split, u. apply split_run_sub_whitespace. discriminate.
Qed.

(* ===================================================================== *)
(** * The text of the body of an XML document *)
(* ===================================================================== *)

Lemma extract_body_text_raw (root : XmlToTxt.Element) :
  XmlToTxt.extract_body_text root
  = PyStr.strip (PyStr.sub_whitespace (raw_text root) false).
Proof.
  unfold XmlToTxt.extract_body_text, raw_text, body_or_root.
  destruct (XmlToTxt.find_body root); reflexivity.
Qed.

(** X13: the text [extract_body_text] returns is the words of the text
    of the body element (of the whole document when no tag ends in
    [body]), in their order, joined by single spaces: every run of
    whitespace is one space and there is none at either end. *)
Theorem extract_body_text_words (root : XmlToTxt.Element) :
  XmlToTxt.extract_body_text root
  = PyStr.join (lit " ") (PyStr.split (raw_text root)).
Proof.
  rewrite extract_body_text_raw. apply collapse_strip_join.
Qed.

Lemma space_not_letter (c : N) :
  PyStr.is_space c = true -> in_set letters c = false.
Proof.
  intros Hc. destruct (in_set letters c) eqn:Hl; [|reflexivity].
  assert (Hle : (c <= 0xFF)%N) by (apply in_letters in Hl; lia).
  pose proof (latin1_all
    (fun c => negb (in_set letters c && PyStr.is_space c))
    c ltac:(vm_compute; reflexivity) Hle) as H.
  cbv beta in H. rewrite Hl, Hc in H. discriminate.
Qed.

Lemma scan_outside (set : list set_item) (ws run : str) :
  Forall (fun c => in_set set c = false) ws ->
  scan set ws run = flush run [].
Proof.
  intros Hws; revert run; induction Hws as [|c ws Hc _ IH]; intros run; simpl;
    [reflexivity|].
  rewrite Hc, IH. reflexivity.
Qed.

Lemma scan_outside_front (set : list set_item) (ws t : str) :
  Forall (fun c => in_set set c = false) ws ->
  scan set (ws ++ t) [] = scan set t [].
Proof.
  induction 1 as [|c ws Hc _ IH]; simpl; [reflexivity|].
  now rewrite Hc, IH.
Qed.

Lemma scan_outside_back (set : list set_item) (t ws run : str) :
  Forall (fun c => in_set set c = false) ws ->
  scan set (t ++ ws) run = scan set t run.
Proof.
  intros Hws. revert run; induction t as [|c t IH]; intros run; simpl.
  - now apply scan_outside.
  - destruct (in_set set c); now rewrite IH.
Qed.

Lemma scan_sub_whitespace (set : list set_item) (t run : str) (in_run : bool) :
  (forall c, PyStr.is_space c = true -> in_set set c = false) ->
  (in_run = true -> run = []) ->
  scan set (PyStr.sub_whitespace t in_run) run = scan set t run.
Proof.
  intros Hset. revert run in_run; induction t as [|c t IH]; intros run in_run Hrun;
    simpl; [reflexivity|].
  destruct (PyStr.is_space c) eqn:Hc.
  - rewrite (Hset c Hc). destruct in_run.
    + rewrite (Hrun eq_refl). now rewrite IH.
    + simpl. rewrite (Hset 0x20%N eq_refl). now rewrite IH.
  - simpl. destruct (in_set set c); rewrite IH; (reflexivity || discriminate).
Qed.

(** X14: collapsing the whitespace does not change what the tokenizer
    sees: the tokens of the text that [extract_body_text] returns are
    the tokens of the text it started from. *)
Theorem extract_body_text_tokens (root : XmlToTxt.Element) :
  FalseConfidenceList.tokenize (XmlToTxt.extract_body_text root)
  = FalseConfidenceList.tokenize (raw_text root).
Proof.
  rewrite extract_body_text_raw, !tokenize_false_confidence. do 2 f_equal.
  set (u := PyStr.sub_whitespace (raw_text root) false).
  destruct (strip_decompose u) as (ws1 & ws2 & Hu & Hws1 & Hws2 & _).
  assert (Hout : forall ws, Forall (fun c => PyStr.is_space c = true) ws ->
                            Forall (fun c => in_set letters c = false) ws).
  { intros ws Hws. eapply Forall_impl; [|exact Hws]. apply space_not_letter. }
  transitivity (scan letters u []).
  - rewrite Hu at 2.
    rewrite scan_outside_front, scan_outside_back by auto. reflexivity.
  - apply scan_sub_whitespace; [apply space_not_letter | discriminate].
Qed.

(* ===================================================================== *)
(** * The short title of a chapter file *)
(* ===================================================================== *)

Lemma firstn_snoc (l : list str) (n : nat) (w : str) :
  nth_error l n = Some w -> firstn n l ++ [w] = firstn (S n) l.
Proof.
  revert n; induction l as [|x l IH]; intros [|n]; simpl; try discriminate.
  - intros [= ->]. reflexivity.
  - intros H. now rewrite IH.
Qed.

Lemma title_loop_all (title_words rest : list str) (idx : nat) :
  (idx + List.length rest)%nat = List.length title_words ->
  ExtractChaptersCustom.title_loop title_words rest idx (firstn idx title_words)
  = Some title_words.
Proof.
  revert idx; induction rest as [|word rest IH]; intros idx Hlen;
    cbn [ExtractChaptersCustom.title_loop].
  - f_equal. apply firstn_all2. simpl in Hlen. lia.
  - simpl in Hlen.
    destruct (nth_error title_words idx) as [w|] eqn:Hw.
    + rewrite (firstn_snoc _ _ _ Hw).
      destruct (ExtractChaptersCustom.contains
                  ExtractChaptersCustom.keywords word).
      * f_equal. rewrite Nat.add_1_r. apply firstn_skipn.
      * rewrite Nat.add_1_r. apply IH. lia.
    + apply nth_error_None in Hw. lia.
Qed.

(** X15: the short title in the name of a chapter file is the words of
    the title line without its last character, joined by underscores.
    The keyword branch (mater, suster, vrouwen) keeps every word, the
    [strip] before [split] changes nothing, and no index is out of
    range, whatever [str.lower] does to the words. *)
Theorem short_title_all_words (str_lower : str -> str) (title_line : str) :
  ExtractChaptersCustom.short_title str_lower title_line
  = Some (PyStr.join (lit "_") (PyStr.split (removelast title_line))).
Proof.
  unfold ExtractChaptersCustom.short_title. cbv zeta. rewrite split_strip.
  set (title_words := PyStr.split (removelast title_line)).
  destruct (existsb _ ExtractChaptersCustom.keywords); [|reflexivity].
  pose proof (title_loop_all title_words (map str_lower title_words) 0
                ltac:(now rewrite length_map)) as H.
  cbn [firstn] in H. rewrite H. reflexivity.
Qed.
